(** * ptpython/completer.py: the completion core, embedded and verified

    The development follows the source file top to bottom:
    - [Re]: the fragment of Python's [re] semantics (backtracking, greedy
      repetition, ordered alternation, capture groups, negative lookahead)
      that the patterns of the completer use;
    - [Py]: the host values the completer inspects ([eval], [repr], [dir],
      [isinstance], truthiness);
    - [DictionaryCompleter] and [PythonCompleter]: the two classes.

    Text is modelled as a list of characters with code points below 256. *)

From Stdlib Require Import Ascii String List Arith ZArith Lia Bool.
From Stdlib Require Import DecimalString.
From Stdlib Require Import Sorted Permutation.
From stdpp Require Import base option list strings gmap.

Set Warnings "-register-all".

Local Open Scope char_scope.
Local Open Scope list_scope.

(** ** Characters and text *)

Definition text : Type := list ascii.

Definition T (s : string) : text := list_ascii_of_string s.

Definition chr_in (lo hi : ascii) (c : ascii) : bool :=
  Nat.leb (nat_of_ascii lo) (nat_of_ascii c)
  && Nat.leb (nat_of_ascii c) (nat_of_ascii hi).

Definition chr_is (a c : ascii) : bool := Ascii.eqb a c.

Definition chr_not (l : list ascii) (c : ascii) : bool :=
  negb (existsb (Ascii.eqb c) l).

(** [str.isspace] / the class [\s]: the ASCII white space, the four
    separators below the space, NEL (133) and the no-break space (160). *)
Definition is_space (c : ascii) : bool :=
  chr_in "009" "013" c || chr_in "028" "032" c
  || chr_is "133" c || chr_is "160" c.

Definition is_digit (c : ascii) : bool := chr_in "0" "9" c.

Definition is_alpha (c : ascii) : bool := chr_in "a" "z" c || chr_in "A" "Z" c.

Definition is_alnum (c : ascii) : bool := is_alpha c || is_digit c.

(** [str.isdigit] on one character: the ASCII digits and the superscript
    digits of Latin-1. *)
Definition str_isdigit (c : ascii) : bool :=
  is_digit c || chr_in "178" "179" c || chr_is "185" c.

(** [str.isalnum] on one character: beside the ASCII letters and digits,
    the letters, the superscript digits and the fractions of Latin-1. *)
Definition str_isalnum (c : ascii) : bool :=
  is_alnum c
  || chr_is "170" c || chr_in "178" "179" c || chr_is "181" c
  || chr_in "185" "186" c || chr_in "188" "190" c
  || chr_in "192" "214" c || chr_in "216" "246" c || chr_in "248" "255" c.

(** [[a-zA-Z_]] and [[a-zA-Z0-9_]]. *)
Definition is_name_start (c : ascii) : bool := is_alpha c || chr_is "_" c.
Definition is_name_char (c : ascii) : bool := is_alnum c || chr_is "_" c.

Definition newline : ascii := "010".
Definition backslash : ascii := "\".
Definition squote : ascii := "'".
Definition dquote : ascii := "034".

(** [s.startswith(p)] *)
Fixpoint startswith (s p : text) : bool :=
  match p, s with
  | [], _ => true
  | _ :: _, [] => false
  | a :: p', b :: s' => Ascii.eqb a b && startswith s' p'
  end.

(** [s.strip()] *)
Fixpoint lstrip (s : text) : text :=
  match s with
  | c :: s' => if is_space c then lstrip s' else s
  | [] => []
  end.

Definition strip (s : text) : text := rev (lstrip (rev (lstrip s))).

(** [sub in s] for strings: [sub] occurs in [s] as a contiguous run. *)
Fixpoint str_contains (s sub : text) : bool :=
  startswith s sub ||
  match s with
  | [] => false
  | _ :: s' => str_contains s' sub
  end.

(** ** The regular expressions of Python's [re] that the file uses *)

Module Re.

Inductive regex : Type :=
| Eps
| Chr (p : ascii -> bool)              (* a literal or a character class *)
| Seq (r1 r2 : regex)
| Alt (r1 r2 : regex)                  (* r1|r2, r1 tried first *)
| Star (r : regex)                     (* r*, greedy *)
| Group (n : nat) (r : regex)          (* (r), numbered *)
| NotAhead (l : text)                  (* (?!l) for a literal l *)
| NotBol                               (* (?!^) *)
| Eol.                                 (* $ without MULTILINE *)

Abbreviation caps := (gmap nat text).

Definition result : Type := (nat * caps)%type.

Definition cont : Type := nat -> text -> caps -> option result.

(** [$]: the end of the string, or just before a newline that ends it. *)
Definition at_eol (s : text) : bool :=
  match s with
  | [] => true
  | [c] => Ascii.eqb c newline
  | _ => false
  end.

(** Greedy repetition of a matcher [m]: one more iteration is tried
    first, then what follows.  A repetition goes on only after an
    iteration that consumed input; every repeated expression of the file
    consumes at least one character, so [length s] iterations are enough
    fuel. *)
Fixpoint star_loop (m : nat -> text -> caps -> cont -> option result)
  (k : cont) (fuel : nat) (pos : nat) (s : text) (c : caps)
  {struct fuel} : option result :=
  match fuel with
  | O => k pos s c
  | S fuel' =>
      match m pos s c
              (fun pos1 s1 c1 =>
                 if Nat.ltb pos pos1 then star_loop m k fuel' pos1 s1 c1
                 else None)
      with
      | Some x => Some x
      | None => k pos s c
      end
  end.

(** The backtracking matcher.  [pos] is the offset of [s] in the whole
    text, [c] the groups captured so far, [k] what has to match after
    [r]. *)
Fixpoint rmatch (r : regex) (pos : nat) (s : text) (c : caps) (k : cont)
  {struct r} : option result :=
  match r with
  | Eps => k pos s c
  | Chr p =>
      match s with
      | a :: s' => if p a then k (S pos) s' c else None
      | [] => None
      end
  | Seq r1 r2 =>
      rmatch r1 pos s c (fun pos1 s1 c1 => rmatch r2 pos1 s1 c1 k)
  | Alt r1 r2 =>
      match rmatch r1 pos s c k with
      | Some x => Some x
      | None => rmatch r2 pos s c k
      end
  | Star r1 => star_loop (rmatch r1) k (length s) pos s c
  | Group n r1 =>
      rmatch r1 pos s c
        (fun pos1 s1 c1 => k pos1 s1 (<[n := take (pos1 - pos) s]> c1))
  | NotAhead l => if startswith s l then None else k pos s c
  | NotBol => if Nat.eqb pos 0 then None else k pos s c
  | Eol => if at_eol s then k pos s c else None
  end.

Definition accept : cont := fun pos _ c => Some (pos, c).

(** [pattern.match(text)]: a match that starts at offset 0. *)
Definition match_at (r : regex) (pos : nat) (t : text) : option result :=
  rmatch r pos (drop pos t) ∅ accept.

(** [pattern.search(text)] from offset [pos] on: the leftmost match, as
    (start, end, groups). *)
Fixpoint search_from (r : regex) (t : text) (fuel pos : nat)
  : option (nat * nat * caps) :=
  match match_at r pos t with
  | Some (e, c) => Some (pos, e, c)
  | None =>
      match fuel with
      | O => None
      | S fuel' => search_from r t fuel' (S pos)
      end
  end.

Definition search (r : regex) (t : text) : option (nat * nat * caps) :=
  search_from r t (length t) 0.

(** [pattern.finditer(text)]: the matches from left to right, none
    overlapping another.  (After an empty match the scan moves on by one;
    the one pattern iterated, [for_loop_pattern], has no empty match.) *)
Fixpoint finditer_from (r : regex) (t : text) (fuel pos : nat)
  : list (nat * nat * caps) :=
  match fuel with
  | O => []
  | S fuel' =>
      match search_from r t (length t - pos) pos with
      | Some (st, e, c) =>
          (st, e, c)
          :: finditer_from r t fuel' (if Nat.ltb st e then e else S e)
      | None => []
      end
  end.

Definition finditer (r : regex) (t : text) : list (nat * nat * caps) :=
  finditer_from r t (S (length t)) 0.

(** [match.group(n)], [None] for a group that took no part. *)
Definition group (c : caps) (n : nat) : option text := c !! n.

(** Derived forms. *)
Definition Plus (r : regex) : regex := Seq r (Star r).

Fixpoint Lit (l : text) : regex :=
  match l with
  | [] => Eps
  | a :: l' => Seq (Chr (chr_is a)) (Lit l')
  end.

Definition Any : regex := Chr (fun _ => true).   (* . under DOTALL *)

Fixpoint Alts (rs : list regex) : regex :=
  match rs with
  | [] => Chr (fun _ => false)
  | [r] => r
  | r :: rs' => Alt r (Alts rs')
  end.

Fixpoint Seqs (rs : list regex) : regex :=
  match rs with
  | [] => Eps
  | [r] => r
  | r :: rs' => Seq r (Seqs rs')
  end.

End Re.

(** ** The patterns of [DictionaryCompleter.__init__]

    They are compiled with [re.VERBOSE]: white space and comments of the
    pattern text are dropped. *)

Module Patterns.
Import Re.

Definition ws_star : regex := Star (Chr is_space).
Definition ws_plus : regex := Plus (Chr is_space).

(** [varname = r"[a-zA-Z_][a-zA-Z0-9_]*"] *)
Definition varname : regex := Seq (Chr is_name_start) (Star (Chr is_name_char)).

Definition no_bracket : ascii -> bool := chr_not ["["; "]"].

(** [\s* \. \s* {varname} \s*] *)
Definition attribute_access : regex :=
  Seqs [ws_star; Chr (chr_is "."); ws_star; varname; ws_star].

(** [\s* \[ [^\[\]]+ \] \s*] *)
Definition item_access : regex :=
  Seqs [ws_star; Chr (chr_is "["); Plus (Chr no_bracket); Chr (chr_is "]");
        ws_star].

(** [expression]: the one capturing group of the safe expression, numbered
    [n] by the pattern that includes it. *)
Definition expression (n : nat) : regex :=
  Group n (Seqs [varname; ws_star; Star (Alt attribute_access item_access)]).

(** [for \s+ ([a-zA-Z0-9_]+) \s+ in \s+ {expression} \s* :] *)
Definition for_loop_pattern : regex :=
  Seqs [Lit (T "for"); ws_plus; Group 1 (Plus (Chr is_name_char)); ws_plus;
        Lit (T "in"); ws_plus; expression 2; ws_star; Chr (chr_is ":")].

(** [{expression} $] *)
Definition expression_pattern : regex := Seq (expression 1) Eol.

(** [{expression} \[ \s* (KEY)$] with KEY = [[^\[\]]*] *)
Definition item_lookup_pattern : regex :=
  Seqs [expression 1; Chr (chr_is "["); ws_star;
        Group 2 (Star (Chr no_bracket)); Eol].

(** [{expression} \. \s* (ATTR)$] with ATTR = [[a-zA-Z0-9_]*] *)
Definition attribute_lookup_pattern : regex :=
  Seqs [expression 1; Chr (chr_is "."); ws_star;
        Group 2 (Star (Chr is_name_char)); Eol].

(** [match.groups()] of a pattern with two groups. *)
Definition groups2 (c : caps) : option (text * text) :=
  match group c 1, group c 2 with
  | Some a, Some b => Some (a, b)
  | _, _ => None
  end.

End Patterns.

(** ** The grammar of [PythonCompleter._create_path_completer_grammar]

    [compile_grammar] drops the white space and the comments of the grammar
    text, turns [(?P<var1>...)] and [(?P<var2>...)] into groups and compiles
    [^ grammar $] with [re.DOTALL]; [_CompiledGrammar.match] is [re.match] of
    that pattern.  Group 1 is [var1], group 2 is [var2]. *)

Module Grammar.
Import Re.

(** ['''  ([^'\\]|'(?!')|''(?!')|\\.])*  '''] *)
Definition triple_single : regex :=
  Seqs [Lit (T "'''");
        Star (Alts [Chr (chr_not [squote; backslash]);
                    Seq (Chr (chr_is squote)) (NotAhead [squote]);
                    Seq (Lit [squote; squote]) (NotAhead [squote]);
                    Seqs [Chr (chr_is backslash); Any; Chr (chr_is "]")]]);
        Lit (T "'''")].

(** The same for the double quote, written Q here:
    [QQ Q ([^Q\\]|Q(?!Q)|QQ(?!^)|\\.])* QQ Q] *)
Definition triple_double : regex :=
  Seqs [Lit [dquote; dquote; dquote];
        Star (Alts [Chr (chr_not [dquote; backslash]);
                    Seq (Chr (chr_is dquote)) (NotAhead [dquote]);
                    Seq (Lit [dquote; dquote]) NotBol;
                    Seqs [Chr (chr_is backslash); Any; Chr (chr_is "]")]]);
        Lit [dquote; dquote; dquote]].

(** [\#[^\n]*(\n|$)] *)
Definition comment : regex :=
  Seqs [Chr (chr_is "#"); Star (Chr (chr_not [newline]));
        Alt (Chr (chr_is newline)) Eol].

(** [Q(?!QQ) ([^Q\\]|\\.)*Q], Q the double quote *)
Definition double_quoted : regex :=
  Seqs [Chr (chr_is dquote); NotAhead [dquote; dquote];
        Star (Alt (Chr (chr_not [dquote; backslash]))
                  (Seq (Chr (chr_is backslash)) Any));
        Chr (chr_is dquote)].

(** ['(?!'') ([^'\\]|\\.)*'] *)
Definition single_quoted : regex :=
  Seqs [Chr (chr_is squote); NotAhead [squote; squote];
        Star (Alt (Chr (chr_not [squote; backslash]))
                  (Seq (Chr (chr_is backslash)) Any));
        Chr (chr_is squote)].

(** The text before the current string: one of its pieces. *)
Definition before_piece : regex :=
  Alts [Chr (chr_not [squote; dquote; "#"]);
        triple_single; triple_double; comment; double_quoted; single_quoted].

(** [' (?P<var1>BODY)] with BODY = [([^\n'\\]|\\.)*] *)
Definition in_single : regex :=
  Seq (Chr (chr_is squote))
      (Group 1 (Star (Alt (Chr (chr_not [newline; squote; backslash]))
                          (Seq (Chr (chr_is backslash)) Any)))).

(** [Q (?P<var2>BODY)] with BODY = [([^\nQ\\]|\\.)*], Q the double quote *)
Definition in_double : regex :=
  Seq (Chr (chr_is dquote))
      (Group 2 (Star (Alt (Chr (chr_not [newline; dquote; backslash]))
                          (Seq (Chr (chr_is backslash)) Any)))).

Definition grammar : regex :=
  Seqs [Star before_piece; Alt in_single in_double; Eol].

(** The quote style the grammar reports. *)
Inductive quote_style : Type := SingleQuoted | DoubleQuoted.

(** [grammar.match(text)], read through its variables: the style and the
    fragment typed so far, still escaped. *)
Definition grammar_match (t : text) : option (quote_style * text) :=
  match match_at grammar 0 t with
  | Some (_, c) =>
      match group c 1, group c 2 with
      | Some v, _ => Some (SingleQuoted, v)
      | None, Some v => Some (DoubleQuoted, v)
      | None, None => None
      end
  | None => None
  end.

(** The truth value the completer takes of the match. *)
Definition inside_string (t : text) : bool :=
  match match_at grammar 0 t with Some _ => true | None => false end.

End Grammar.

(** ** Host values

    What the completer does with the objects it finds in the environment:
    [isinstance] against [dict], [list] and [tuple], truthiness, [len],
    indexing, iteration over a dictionary, [repr] and [str].  A range
    stands for the sequences that are neither lists nor tuples.  An object
    of any other type is opaque: it has the names [dir] lists, and a truth
    value, a [repr] and a [str] that may each raise. *)

Module Py.

Inductive exn : Type :=
| NameError | SyntaxError | ValueError | TypeError
| ReprFailedError | OtherError
| KeyboardInterrupt.

(** [isinstance(e, Exception)]: what [except Exception] catches.  A
    [KeyboardInterrupt] derives from [BaseException] only. *)
Definition is_exception (e : exn) : bool :=
  match e with
  | KeyboardInterrupt => false
  | _ => true
  end.

Inductive outcome (A : Type) : Type :=
| Ok (a : A)
| Raise (e : exn).
Arguments Ok {A} a.
Arguments Raise {A} e.

Inductive value : Type :=
| VNone
| VBool (b : bool)
| VInt (z : Z)
| VStr (s : text)
| VList (l : list value)
| VTuple (l : list value)
| VDict (items : list (value * value))     (* in insertion order *)
| VRange (stop : nat)                      (* range(stop) *)
| VObj (names : list text) (truthy : option bool) (rep : option text)
    (to_str : option text).

Abbreviation env := (gmap text value).

Definition is_dict (v : value) : bool :=
  match v with VDict _ => true | _ => false end.

Definition is_list_or_tuple (v : value) : bool :=
  match v with VList _ | VTuple _ => true | _ => false end.

(** [bool(v)], as [if v:] computes it.  The [__bool__] or [__len__] of an
    opaque object may raise. *)
Definition truthy (v : value) : outcome bool :=
  match v with
  | VNone => Ok false
  | VBool b => Ok b
  | VInt z => Ok (negb (Z.eqb z 0))
  | VStr s => Ok (negb (Nat.eqb (length s) 0))
  | VList l | VTuple l => Ok (negb (Nat.eqb (length l) 0))
  | VDict items => Ok (negb (Nat.eqb (length items) 0))
  | VRange stop => Ok (negb (Nat.eqb stop 0))
  | VObj _ (Some t) _ _ => Ok t
  | VObj _ None _ _ => Raise OtherError
  end.

(** The elements of a list or tuple. *)
Definition elements (v : value) : list value :=
  match v with VList l | VTuple l => l | _ => [] end.

(** [str] and [repr] of an integer: its decimal form. *)
Definition str_of_Z (z : Z) : text :=
  T (NilZero.string_of_int (Z.to_int z)).

Definition str_of_nat (n : nat) : text := str_of_Z (Z.of_nat n).

Definition hex_digit (n : nat) : ascii :=
  nth n (T "0123456789abcdef") "0"%char.

(** [repr] of a string: single quotes unless the string has a single and
    no double quote; the quote, the backslash and the characters that are
    not printable (the control characters, 127 to 160 and the soft hyphen
    173) are escaped. *)
Definition repr_char (q : ascii) (c : ascii) : text :=
  if Ascii.eqb c backslash then [backslash; backslash]
  else if Ascii.eqb c q then [backslash; q]
  else if Ascii.eqb c newline then [backslash; "n"%char]
  else if Ascii.eqb c "013"%char then [backslash; "r"%char]
  else if Ascii.eqb c "009"%char then [backslash; "t"%char]
  else if Nat.ltb (nat_of_ascii c) 32 || chr_in "127" "160" c
          || chr_is "173" c then
    [backslash; "x"%char; hex_digit (nat_of_ascii c / 16);
     hex_digit (nat_of_ascii c mod 16)]
  else [c].

Definition repr_str (s : text) : text :=
  let q := if existsb (Ascii.eqb squote) s
              && negb (existsb (Ascii.eqb dquote) s)
           then dquote else squote in
  q :: concat (map (repr_char q) s) ++ [q].

Fixpoint join (sep : text) (l : list text) : text :=
  match l with
  | [] => []
  | [x] => x
  | x :: l' => x ++ sep ++ join sep l'
  end.

(** [repr(v)]; [None] when it raises. *)
Fixpoint repr (v : value) : option text :=
  match v with
  | VNone => Some (T "None")
  | VBool true => Some (T "True")
  | VBool false => Some (T "False")
  | VInt z => Some (str_of_Z z)
  | VStr s => Some (repr_str s)
  | VList l =>
      match (fix all (l : list value) : option (list text) :=
               match l with
               | [] => Some []
               | x :: l' =>
                   match repr x, all l' with
                   | Some r, Some rs => Some (r :: rs)
                   | _, _ => None
                   end
               end) l with
      | Some rs => Some (T "[" ++ join (T ", ") rs ++ T "]")
      | None => None
      end
  | VTuple l =>
      match (fix all (l : list value) : option (list text) :=
               match l with
               | [] => Some []
               | x :: l' =>
                   match repr x, all l' with
                   | Some r, Some rs => Some (r :: rs)
                   | _, _ => None
                   end
               end) l with
      | Some [r] => Some (T "(" ++ r ++ T ",)")
      | Some rs => Some (T "(" ++ join (T ", ") rs ++ T ")")
      | None => None
      end
  | VDict items =>
      match (fix all (l : list (value * value)) : option (list text) :=
               match l with
               | [] => Some []
               | (k, x) :: l' =>
                   match repr k, repr x, all l' with
                   | Some rk, Some rx, Some rs =>
                       Some ((rk ++ T ": " ++ rx) :: rs)
                   | _, _, _ => None
                   end
               end) items with
      | Some rs => Some (T "{" ++ join (T ", ") rs ++ T "}")
      | None => None
      end
  | VRange stop => Some (T "range(0, " ++ str_of_nat stop ++ T ")")
  | VObj _ _ rep _ => rep
  end.

(** [str(v)]: the text of a string, what [__str__] gives for an opaque
    object, the [repr] of anything else; [None] when it raises. *)
Definition str (v : value) : option text :=
  match v with
  | VStr s => Some s
  | VObj _ _ _ to_str => to_str
  | _ => repr v
  end.

(** [s.startswith(p)] for an arbitrary object [p]: a string, or a tuple
    whose elements are tried in order, the first prefix found giving
    [True] and an element that is no string a [TypeError]; a [TypeError]
    for anything else. *)
Fixpoint startswith_any (s : text) (l : list value) : outcome bool :=
  match l with
  | [] => Ok false
  | VStr p' :: l' => if startswith s p' then Ok true else startswith_any s l'
  | _ :: _ => Raise TypeError
  end.

Definition startswith_obj (s : text) (p : value) : outcome bool :=
  match p with
  | VStr p' => Ok (startswith s p')
  | VTuple l => startswith_any s l
  | _ => Raise TypeError
  end.

(** What the interpreter provides and the completer calls: [eval] of an
    expression under globals and locals, [ast.literal_eval] and [dir],
    each of which may raise.  [eval] is taken to leave the two
    environments as it finds them: an expression that assigns to or
    deletes from the dictionaries it is handed (a walrus inside brackets,
    a call of [locals().pop]) is outside this model. *)
Record host : Type := Host {
  eval : text -> env -> env -> outcome value;
  literal_eval : text -> outcome value;
  dir : value -> outcome (list text);
}.

End Py.

(** ** Documents, completions and generators *)

Record Document : Type := mkDocument {
  doc_text : text;
  cursor_position : nat;
}.

Definition text_before_cursor (d : Document) : text :=
  take (cursor_position d) (doc_text d).

(** [document.char_before_cursor]: [text[cursor_position - 1]], the empty
    string when the index is out of range.  At offset 0 the index is -1,
    the last character of the text. *)
Definition char_before_cursor (d : Document) : text :=
  match cursor_position d with
  | O =>
      match doc_text d with
      | [] => []
      | c :: t' => [List.last t' c]
      end
  | S n => match doc_text d !! n with Some c => [c] | None => [] end
  end.

(** [Completion(text, start_position=0, display=None, display_meta=None,
    style="")] *)
Record Completion : Type := mkCompletion {
  c_text : text;
  start_position : Z;
  display : option text;
  display_meta : option text;
  style : text;
}.

(** A generator run to its end: what it yielded, and the exception that
    ended it, if one did. *)
Definition gen : Type := (list Completion * option Py.exn)%type.

Definition gen_nil : gen := ([], None).

Definition gen_yield (c : Completion) : gen := ([c], None).

Definition gen_raise (e : Py.exn) : gen := ([], Some e).

(** [yield from g1; yield from g2] *)
Definition gen_seq (g1 g2 : gen) : gen :=
  match g1 with
  | (l1, Some e) => (l1, Some e)
  | (l1, None) => (l1 ++ g2.1, g2.2)
  end.

(** [for x in l: body(x)] *)
Fixpoint gen_for {A : Type} (l : list A) (body : A -> gen) : gen :=
  match l with
  | [] => gen_nil
  | x :: l' => gen_seq (body x) (gen_for l' body)
  end.

(** ** class DictionaryCompleter *)

Module DictionaryCompleter.
Import Py.

Section WithHost.
Variable h : host.
Variable globals : env.     (* self.get_globals() *)

(** [_lookup]: every exception of [eval] gives [None]. *)
Definition _lookup (expression : text) (temp_locals : env) : value :=
  match eval h (strip expression) globals temp_locals with
  | Ok v => v
  | Raise _ => VNone
  end.

(** One turn of the loop over the [for] statements.  The truth value is
    asked of a list or tuple only, whose [len] does not raise. *)
Definition bind_loop_variable (temp_locals : env) (m : nat * nat * Re.caps)
  : env :=
  match Patterns.groups2 m.2 with
  | Some (varname, expression) =>
      let expression_val := _lookup expression temp_locals in
      if is_list_or_tuple expression_val then
        match truthy expression_val, elements expression_val with
        | Ok true, first :: _ => <[varname := first]> temp_locals
        | _, _ => temp_locals
        end
      else temp_locals
  | None => temp_locals
  end.

(** The scratch locals after the loop of [get_completions]. *)
Definition loop_locals (locals : env) (t : text) : env :=
  fold_left bind_loop_variable
    (Re.finditer Patterns.for_loop_pattern t) locals.

(** [_do_repr]: [ReprFailedError] for every failure of [repr]. *)
Definition _do_repr (obj : value) : outcome text :=
  match repr obj with
  | Some s => Ok s
  | None => Raise ReprFailedError
  end.

(** [_get_expression_completions] *)
Definition _get_expression_completions (t : text) (temp_locals : env)
  : gen :=
  match Re.search Patterns.expression_pattern t with
  | Some (_, _, c) =>
      match Re.group c 1 with
      | Some object_var =>
          let result := _lookup object_var temp_locals in
          if is_list_or_tuple result || is_dict result then
            gen_yield (mkCompletion (T "[") 0 None None [])
          else
            match truthy result with
            | Ok true => gen_yield (mkCompletion (T ".") 0 None None [])
            | Ok false => gen_nil
            | Raise e => gen_raise e
            end
      | None => gen_nil
      end
  | None => gen_nil
  end.

(** The loop that evaluates the key: [key], then [key] closed by a
    double and by a single quote; the first that parses wins, and
    [SyntaxError] and [ValueError] move on to the next. *)
Fixpoint eval_key (key_obj : value) (candidates : list text)
  : outcome value :=
  match candidates with
  | [] => Ok key_obj
  | k :: rest =>
      match literal_eval h k with
      | Ok v => Ok v
      | Raise SyntaxError | Raise ValueError => eval_key key_obj rest
      | Raise e => Raise e
      end
  end.

(** The body of the two loops that yield a key or an index: the
    [try ... except ReprFailedError: pass] around the [yield]. *)
Definition yield_item (key : text) (k v : value) : gen :=
  match _do_repr k with
  | Ok k_repr =>
      match _do_repr v with
      | Ok v_repr =>
          gen_yield (mkCompletion (k_repr ++ T "]")
                       (- Z.of_nat (length key))
                       (Some (T "[" ++ k_repr ++ T "]"))
                       (Some v_repr) [])
      | Raise ReprFailedError => gen_nil
      | Raise e => gen_raise e
      end
  | Raise ReprFailedError => gen_nil
  | Raise e => gen_raise e
  end.

(** The keys of a dictionary. *)
Definition dict_completions (key : text) (items : list (value * value))
  : gen :=
  match eval_key (VStr key) [key; key ++ [dquote]; key ++ [squote]] with
  | Raise e => gen_raise e
  | Ok key_obj =>
      gen_for items
        (fun kv =>
           match str kv.1 with
           | None => gen_raise OtherError
           | Some sk =>
               match startswith_obj sk key_obj with
               | Raise e => gen_raise e
               | Ok true => yield_item key kv.1 kv.2
               | Ok false => gen_nil
               end
           end)
  end.

(** The indices of a list or tuple. *)
Definition index_completions (key : text) (l : list value) : gen :=
  if Nat.eqb (length key) 0 || forallb str_isdigit key then
    gen_for (seq 0 (Nat.min (length l) 1000))
      (fun k =>
         if startswith (str_of_nat k) key then
           match l !! k with
           | Some v => yield_item key (VInt (Z.of_nat k)) v
           | None => gen_raise OtherError
           end
         else gen_nil)
  else gen_nil.

(** [_get_item_lookup_completions] *)
Definition _get_item_lookup_completions (t : text) (temp_locals : env)
  : gen :=
  match Re.search Patterns.item_lookup_pattern t with
  | Some (_, _, c) =>
      match Patterns.groups2 c with
      | Some (object_var, key) =>
          let result := _lookup object_var temp_locals in
          match result with
          | VDict items => dict_completions key items
          | VList l | VTuple l => index_completions key l
          | _ => gen_nil
          end
      | None => gen_nil
      end
  | None => gen_nil
  end.

(** The order of [str] values in Python: by code point, a prefix
    before its extensions. *)
Fixpoint text_leb (a b : text) : bool :=
  match a, b with
  | [], _ => true
  | _ :: _, [] => false
  | x :: a', y :: b' =>
      if Nat.ltb (nat_of_ascii x) (nat_of_ascii y) then true
      else if Nat.ltb (nat_of_ascii y) (nat_of_ascii x) then false
      else text_leb a' b'
  end.

(** [sort_key] of [_sort_attribute_names] *)
Definition sort_key (name : text) : nat * text :=
  if startswith name (T "__") then (2, name)
  else if startswith name (T "_") then (1, name)
  else (0, name).

(** The order of the keys, as tuples. *)
Definition key_leb (a b : nat * text) : bool :=
  if Nat.ltb a.1 b.1 then true
  else if Nat.ltb b.1 a.1 then false
  else text_leb a.2 b.2.

Fixpoint insert_sorted (x : text) (l : list text) : list text :=
  match l with
  | [] => [x]
  | y :: l' =>
      if key_leb (sort_key x) (sort_key y) then x :: l
      else y :: insert_sorted x l'
  end.

(** [_sort_attribute_names]: [sorted(names, key=sort_key)], stable. *)
Definition _sort_attribute_names (names : list text) : list text :=
  foldr insert_sorted [] names.

(** [_get_attribute_completions] *)
Definition _get_attribute_completions (t : text) (temp_locals : env)
  : gen :=
  match Re.search Patterns.attribute_lookup_pattern t with
  | Some (_, _, c) =>
      match Patterns.groups2 c with
      | Some (object_var, attr_name) =>
          let result := _lookup object_var temp_locals in
          match dir h result with
          | Raise e => gen_raise e
          | Ok listed =>
              let names := _sort_attribute_names listed in
              gen_for names
                (fun name =>
                   if startswith name attr_name then
                     gen_yield (mkCompletion name
                                  (- Z.of_nat (length attr_name)) None None [])
                   else gen_nil)
          end
      | None => gen_nil
      end
  | None => gen_nil
  end.

(** [get_completions]: the loop variables first, then the three
    generators one after the other. *)
Definition get_completions (locals : env) (document : Document) : gen :=
  let t := text_before_cursor document in
  let temp_locals := loop_locals locals t in
  gen_seq (_get_expression_completions t temp_locals)
    (gen_seq (_get_item_lookup_completions t temp_locals)
       (_get_attribute_completions t temp_locals)).

End WithHost.

End DictionaryCompleter.

(** ** class PythonCompleter *)

Module PythonCompleter.
Import Py.

(** [text.replace(old, new)] for an [old] of one character. *)
Fixpoint replace_chr (old : ascii) (new : text) (t : text) : text :=
  match t with
  | [] => []
  | a :: t' =>
      (if Ascii.eqb a old then new else [a]) ++ replace_chr old new t'
  end.

(** [unwrapper]: [re.sub(r"\\(.)", r"\1", text)]; without [re.DOTALL] the
    dot is any character but the newline. *)
Fixpoint unwrapper (t : text) : text :=
  match t with
  | [] => []
  | a :: t' =>
      if Ascii.eqb a backslash then
        match t' with
        | c :: t'' =>
            if Ascii.eqb c newline then a :: unwrapper t'
            else c :: unwrapper t''
        | [] => [a]
        end
      else a :: unwrapper t'
  end.

Definition single_quoted_wrapper (t : text) : text :=
  replace_chr squote [backslash; squote]
    (replace_chr backslash [backslash; backslash] t).

Definition double_quoted_wrapper (t : text) : text :=
  replace_chr dquote [backslash; dquote]
    (replace_chr backslash [backslash; backslash] t).

(** [escape_funcs] and [unescape_funcs] of the compiled grammar, by the
    variable of the quote style. *)
Definition escape_func (q : Grammar.quote_style) : text -> text :=
  match q with
  | Grammar.SingleQuoted => single_quoted_wrapper
  | Grammar.DoubleQuoted => double_quoted_wrapper
  end.

Definition unescape_func (q : Grammar.quote_style) : text -> text := unwrapper.

(** A completion of Jedi. *)
Record jedi_completion : Type := mkJedi {
  name_with_symbols : text;
  complete : text;
}.

(** The collaborators outside this file: the path completer behind the
    grammar, Jedi, and the name tables of [_get_style_for_name]. *)
Record collaborators : Type := Collaborators {
  path_completions : Document -> list Completion;
  jedi_script : Document -> env -> env
                -> option (outcome (list jedi_completion));
  _builtin_names : list text;
  iskeyword : text -> bool;
}.

(** Which collaborator a request called. *)
Inductive call : Type := CallPathCompleter | CallJedi.

(** A request run to its end. *)
Record run : Type := mkRun {
  yielded : list Completion;
  raised : option exn;
  calls : list call;
}.

Definition text_in (x : text) (l : list text) : bool :=
  existsb (fun y => if decide (x = y) then true else false) l.

Section WithHost.
Variable h : host.
Variable co : collaborators.
Variable globals locals : env.
Variable enable_dictionary_completion : bool.

Definition _complete_path_while_typing (document : Document) : bool :=
  let char := char_before_cursor document in
  negb (Nat.eqb (length (doc_text document)) 0)
  && (negb (Nat.eqb (length char) 0) && forallb str_isalnum char
      || str_contains (T "/.~") char).

Definition _complete_python_while_typing (document : Document) : bool :=
  let char := char_before_cursor document in
  negb (Nat.eqb (length (doc_text document)) 0)
  && (negb (Nat.eqb (length char) 0) && forallb str_isalnum char
      || str_contains (T "_.") char).

Definition _get_style_for_name (name : text) : text :=
  if text_in name (_builtin_names co) then T "class:completion.builtin"
  else if iskeyword co name then T "class:completion.keyword"
  else [].

(** The test [c.text not in "[."] of the first loop. *)
Definition counts_as_dict_completion (c : Completion) : bool :=
  negb (str_contains (T "[.") (c_text c)).

(** The Jedi step: the script and its completions.  The handlers of
    [script.completions()] end in [except Exception], so an exception
    that is an [Exception] is passed over and any other leaves the
    generator. *)
Definition jedi_step (document : Document) : run :=
  match jedi_script co document locals globals with
  | Some (Ok completions) =>
      mkRun
        (map (fun c =>
                mkCompletion (name_with_symbols c)
                  (Z.of_nat (length (complete c))
                   - Z.of_nat (length (name_with_symbols c)))
                  (Some (name_with_symbols c)) None
                  (_get_style_for_name (name_with_symbols c)))
           completions)
        None [CallJedi]
  | Some (Raise e) =>
      if is_exception e then mkRun [] None [CallJedi]
      else mkRun [] (Some e) [CallJedi]
  | None => mkRun [] None [CallJedi]
  end.

(** What follows the dictionary step. *)
Definition after_dictionary (document : Document)
  (completion_requested : bool) : run :=
  let path :=
    if completion_requested || _complete_path_while_typing document
    then mkRun (path_completions co document) None [CallPathCompleter]
    else mkRun [] None [] in
  if Grammar.inside_string (text_before_cursor document) then path
  else if completion_requested || _complete_python_while_typing document
  then
    let j := jedi_step document in
    mkRun (yielded path ++ yielded j) (raised j) (calls path ++ calls j)
  else path.

(** [get_completions] *)
Definition get_completions (document : Document)
  (completion_requested : bool) : run :=
  if enable_dictionary_completion then
    let d := DictionaryCompleter.get_completions h globals locals document in
    match d.2 with
    | Some e => mkRun d.1 (Some e) []
    | None =>
        if existsb counts_as_dict_completion d.1 then mkRun d.1 None []
        else
          let r := after_dictionary document completion_requested in
          mkRun (d.1 ++ yielded r) (raised r) (calls r)
    end
  else after_dictionary document completion_requested.

End WithHost.

End PythonCompleter.

(** ** A concrete host for the examples

    [eval] on a bare name of ASCII letters, digits and underscores (locals
    before globals, [NameError] for a name in neither), [ast.literal_eval]
    on a decimal integer or a plainly quoted string, and [dir] of [None]
    and of an opaque object, which does not raise.  The theorems that
    hold for every host are stated for every host; this one runs the
    examples of the specification. *)

Module Example.
Import Py.

Definition is_identifier (e : text) : bool :=
  match e with
  | a :: e' => is_name_start a && forallb is_name_char e'
  | [] => false
  end.

Definition eval_name (e : text) (globals locals : env) : outcome value :=
  if is_identifier e then
    match locals !! e with
    | Some v => Ok v
    | None =>
        match globals !! e with
        | Some v => Ok v
        | None => Raise NameError
        end
    end
  else Raise SyntaxError.

Definition nat_of_digits (ds : text) : nat :=
  fold_left (fun n d => 10 * n + (nat_of_ascii d - 48)) ds 0.

Definition plain_char (q : ascii) (c : ascii) : bool :=
  chr_not [q; backslash; newline] c.

Definition literal_eval_plain (s : text) : outcome value :=
  match s with
  | [] => Raise SyntaxError
  | a :: s' =>
      if forallb is_digit s
         && (negb (Ascii.eqb a "0"%char) || forallb (Ascii.eqb "0"%char) s)
      then Ok (VInt (Z.of_nat (nat_of_digits s)))
      else if (Ascii.eqb a squote || Ascii.eqb a dquote)
              && Nat.leb 1 (length s')
              && forallb (plain_char a) (removelast s')
              && Ascii.eqb (List.last s' "x"%char) a
      then Ok (VStr (removelast s'))
      else if is_identifier s then Raise ValueError
      else Raise SyntaxError
  end.

(** [dir(None)] *)
Definition none_names : list text :=
  map T ["__bool__"; "__class__"; "__delattr__"; "__dir__"; "__doc__";
         "__eq__"; "__format__"; "__ge__"; "__getattribute__"; "__gt__";
         "__hash__"; "__init__"; "__init_subclass__"; "__le__"; "__lt__";
         "__ne__"; "__new__"; "__reduce__"; "__reduce_ex__"; "__repr__";
         "__setattr__"; "__sizeof__"; "__str__"; "__subclasshook__"]%string.

(** [dir]: the names of an opaque object are its own; for the built-in
    containers and scalars the table [names_of] is supplied by the
    example. *)
Definition dir_with (names_of : value -> list text) (v : value)
  : outcome (list text) :=
  match v with
  | VNone => Ok none_names
  | VObj names _ _ _ => Ok names
  | _ => Ok (names_of v)
  end.

Definition host_with (names_of : value -> list text) : host :=
  Host eval_name literal_eval_plain (dir_with names_of).

Definition cpython : host := host_with (fun _ => []).

(** Collaborators that answer with one marked completion each. *)
Definition marker (s : string) : Completion :=
  mkCompletion (T s) 0 None None [].

Definition collaborators0 : PythonCompleter.collaborators :=
  PythonCompleter.Collaborators
    (fun _ => [marker "path"])
    (fun _ _ _ => Some (Ok [PythonCompleter.mkJedi (T "jedi") (T "jedi")]))
    [] (fun _ => false).

End Example.

(** * The vocabulary of the properties *)

Section Vocabulary.
Import Re Grammar.

(** The insert texts that the test of the first loop lets pass as triggers:
    the substrings of the string ["[."]. *)
Definition trigger_texts : list text := [[]; T "["; T "."; T "[."].

(** An object whose [dir] is one empty name, and a request on it. *)
Definition empty_name_globals : Py.env :=
  {[ T "o" := Py.VObj [[]] (Some true) None None ]}.

Definition empty_name_document : Document := mkDocument (T "o.") 2.

(** The globals of the examples: [d = {'a': 1, 'bb': 2}] and
    [xs = [10, 20, 30]]. *)
Definition dict_d_globals : Py.env :=
  {[ T "d" := Py.VDict [(Py.VStr (T "a"), Py.VInt 1);
                        (Py.VStr (T "bb"), Py.VInt 2)] ]}.

Definition list_xs_globals : Py.env :=
  {[ T "xs" := Py.VList [Py.VInt 10; Py.VInt 20; Py.VInt 30] ]}.

(** Three double quotes. *)
Definition ddd : text := [dquote; dquote; dquote].

(** A complete triple-quoted string, a space, and a second triple-quoted
    string that is still open at the cursor, with a single quote in its
    body. *)
Definition open_triple_double : text :=
  ddd ++ T "a" ++ ddd ++ T " " ++ ddd ++ T " 'c".

(** The expression a match has found: the first group, as the trigger step
    takes it, or the first of the two groups, as the lookups take it. *)
Definition object_var_of_groups (c : Re.caps) : option text := Re.group c 1.

Definition object_var_of_groups2 (c : Re.caps) : option text :=
  fst <$> Patterns.groups2 c.

(** The pattern matches the text and [eval] of the expression it found
    raises. *)
Definition lookup_raises (h : Py.host) (globals temp_locals : Py.env)
    (pattern : Re.regex) (object_var_of : Re.caps -> option text) (t : text)
  : bool :=
  match Re.search pattern t with
  | Some (_, _, c) =>
      match object_var_of c with
      | Some object_var =>
          match Py.eval h (strip object_var) globals temp_locals with
          | Py.Raise _ => true
          | Py.Ok _ => false
          end
      | None => false
      end
  | None => false
  end.

(** The candidate for an attribute name. *)
Definition attribute_completion (attr_name name : text) : Completion :=
  mkCompletion name (- Z.of_nat (length attr_name)) None None [].

(** The two groups of the match of a pattern, when it matches. *)
Definition lookup_match (pattern : Re.regex) (t : text)
  : option (text * text) :=
  match Re.search pattern t with
  | Some (_, _, c) => Patterns.groups2 c
  | None => None
  end.

(** The candidate for a key or index with the given [repr]s. *)
Definition item_completion (key k_repr v_repr : text) : Completion :=
  mkCompletion (k_repr ++ T "]") (- Z.of_nat (length key))
    (Some (T "[" ++ k_repr ++ T "]")) (Some v_repr) [].

(** The candidate of a key and its value, when both have a [repr]. *)
Definition item_candidate (key : text) (k v : Py.value) : option Completion :=
  match Py.repr k, Py.repr v with
  | Some k_repr, Some v_repr => Some (item_completion key k_repr v_repr)
  | _, _ => None
  end.

(** The indices that qualify, with their candidates. *)
Definition index_candidates (key : text) (l : list Py.value)
  : list Completion :=
  omap (fun k => match l !! k with
                 | Some v => item_candidate key (Py.VInt (Z.of_nat k)) v
                 | None => None
                 end)
    (List.filter (fun k => startswith (Py.str_of_nat k) key)
       (seq 0 (Nat.min (length l) 1000))).

(** A list whose one element has a [repr] that raises. *)
Definition unprintable : Py.value := Py.VObj [] (Some true) None None.

Definition unprintable_globals : Py.env :=
  {[ T "xs" := Py.VList [unprintable] ]}.

(** The keys whose [str] starts with the text [p]. *)
Definition key_starts_with (p : text) (kv : Py.value * Py.value) : bool :=
  match Py.str kv.1 with
  | Some sk => startswith sk p
  | None => false
  end.

(** Their candidates. *)
Definition key_candidates (key p : text) (items : list (Py.value * Py.value))
  : list Completion :=
  omap (fun kv => item_candidate key kv.1 kv.2)
    (List.filter (key_starts_with p) items).

(** [d = {1: 'x'}] *)
Definition int_key_globals : Py.env :=
  {[ T "d" := Py.VDict [(Py.VInt 1, Py.VStr (T "x"))] ]}.


(** The body of a complete string in quotes [q]: characters other than the
    quote and the backslash, and pairs of a backslash and any character. *)
Inductive string_body (q : ascii) : text -> Prop :=
| string_body_nil : string_body q []
| string_body_plain (a : ascii) (b : text) :
    chr_not [q; backslash] a = true -> string_body q b ->
    string_body q (a :: b)
| string_body_escape (a : ascii) (b : text) :
    string_body q b -> string_body q (backslash :: a :: b).

(** The fragment typed so far in a string in quotes [q]: as the body of a
    string, without a newline of its own and without a backslash left alone
    at its end. *)
Inductive fragment (q : ascii) : text -> Prop :=
| fragment_nil : fragment q []
| fragment_plain (a : ascii) (b : text) :
    chr_not [newline; q; backslash] a = true -> fragment q b ->
    fragment q (a :: b)
| fragment_escape (a : ascii) (b : text) :
    fragment q b -> fragment q (backslash :: a :: b).

(** [(p|\\.)]: one character of the class [p], or an escaped character. *)
Definition element (p : ascii -> bool) : regex :=
  Alt (Chr p) (Seq (Chr (chr_is backslash)) Any).

(** The body of a triple-quoted region in quotes [q], without backslash:
    characters other than the quote, and one or two quotes followed by such
    a character. *)
Inductive triple_body (q : ascii) : text -> Prop :=
| triple_body_nil : triple_body q []
| triple_body_plain (a : ascii) (b : text) :
    chr_not [q; backslash] a = true -> triple_body q b ->
    triple_body q (a :: b)
| triple_body_quote (a : ascii) (b : text) :
    chr_not [q; backslash] a = true -> triple_body q b ->
    triple_body q (q :: a :: b)
| triple_body_quotes (a : ascii) (b : text) :
    chr_not [q; backslash] a = true -> triple_body q b ->
    triple_body q (q :: q :: a :: b).

(** [before tail pre]: the text [pre], followed by [tail], is made of
    characters outside strings and comments, of comments that end with
    their line, of complete strings in single or double quotes (their
    opening quote not followed by two more quotes), of ['''] regions without
    backslash, and of regions in three double quotes without backslash
    after which the text has no three double quotes in a row. *)
Inductive before (tail : text) : text -> Prop :=
| before_nil : before tail []
| before_plain (a : ascii) (pre : text) :
    chr_not [squote; dquote; "#"%char] a = true ->
    before tail pre -> before tail (a :: pre)
| before_comment (b pre : text) :
    forallb (chr_not [newline]) b = true ->
    before tail pre -> before tail ("#"%char :: b ++ newline :: pre)
| before_single_quoted (b pre : text) :
    string_body squote b ->
    startswith (b ++ squote :: pre ++ tail) [squote; squote] = false ->
    before tail pre -> before tail (squote :: b ++ squote :: pre)
| before_double_quoted (b pre : text) :
    string_body dquote b ->
    startswith (b ++ dquote :: pre ++ tail) [dquote; dquote] = false ->
    before tail pre -> before tail (dquote :: b ++ dquote :: pre)
| before_triple_single (b pre : text) :
    triple_body squote b ->
    before tail pre ->
    before tail (T "'''" ++ b ++ T "'''" ++ pre)
| before_triple_double (b pre : text) :
    triple_body dquote b ->
    str_contains (dquote :: pre ++ tail) ddd = false ->
    before tail pre ->
    before tail (ddd ++ b ++ ddd ++ pre).

(** A string in quotes [q], as the grammar writes it for both quotes. *)
Definition quoted (q : ascii) : regex :=
  Seqs [Chr (chr_is q); NotAhead [q; q];
        Star (element (chr_not [q; backslash])); Chr (chr_is q)].

(** One step in the body of a ['''] region. *)
Definition triple_element : regex :=
  Alts [Chr (chr_not [squote; backslash]);
        Seq (Chr (chr_is squote)) (NotAhead [squote]);
        Seq (Lit [squote; squote]) (NotAhead [squote]);
        Seqs [Chr (chr_is backslash); Any; Chr (chr_is "]"%char)]].

(** One step in the body of a region in three double quotes. *)
Definition triple_element_double : regex :=
  Alts [Chr (chr_not [dquote; backslash]);
        Seq (Chr (chr_is dquote)) (NotAhead [dquote]);
        Seq (Lit [dquote; dquote]) NotBol;
        Seqs [Chr (chr_is backslash); Any; Chr (chr_is "]"%char)]].

(** The character of a quote style. *)
Definition quote_char (q : Grammar.quote_style) : ascii :=
  match q with
  | Grammar.SingleQuoted => squote
  | Grammar.DoubleQuoted => dquote
  end.

(** A text in a string that is open at the cursor: no quote is left
    unescaped; a backslash escapes the character after it. *)
Fixpoint no_unescaped_quote (q : ascii) (t : text) : bool :=
  match t with
  | [] => true
  | a :: t' =>
      if Ascii.eqb a backslash then
        match t' with
        | _ :: t'' => no_unescaped_quote q t''
        | [] => true
        end
      else if Ascii.eqb a q then false
      else no_unescaped_quote q t'
  end.

(** A region in three double quotes, a comment with a quote in it, a string
    with an escaped quote, a string in double quotes and a ['''] region
    with a quote in its body; then a string that is open at the cursor. *)
Definition before_example : text :=
  ddd ++ T "doc" ++ ddd ++ [newline]
  ++ T "# it's" ++ [newline] ++ T "s = 'a\'b' + " ++ [dquote] ++ T "c"
  ++ [dquote] ++ T " + '''d'e''' + f(".

Definition fragment_example : text := T "x\\y".

(** The class of a name, read off its first characters: 2 for a name that
    begins with two underscores, 1 for a name that begins with one, 0 for
    every other name, the public ones. *)
Definition name_rank (name : text) : nat :=
  match name with
  | "_" :: "_" :: _ => 2
  | "_" :: _ => 1
  | _ => 0
  end.

(** The lexicographic order of texts by code point: a text comes after
    its prefixes, and the first character that differs decides. *)
Inductive lex_le : text -> text -> Prop :=
| lex_le_nil (b : text) : lex_le [] b
| lex_le_lt (x y : ascii) (a b : text) :
    nat_of_ascii x < nat_of_ascii y -> lex_le (x :: a) (y :: b)
| lex_le_cons (x : ascii) (a b : text) :
    lex_le a b -> lex_le (x :: a) (x :: b).

(** The order the attribute names are shown in: the public names, then
    those with one leading underscore, then those with two; inside a class,
    lexicographic. *)
Definition sorts_before (a b : text) : Prop :=
  name_rank a < name_rank b \/ (name_rank a = name_rank b /\ lex_le a b).




(** The collaborators [co] with another answer of Jedi. *)
Definition with_jedi (co : PythonCompleter.collaborators)
    (script : option (Py.outcome (list PythonCompleter.jedi_completion)))
  : PythonCompleter.collaborators :=
  PythonCompleter.Collaborators (PythonCompleter.path_completions co)
    (fun _ _ _ => script) (PythonCompleter._builtin_names co)
    (PythonCompleter.iskeyword co).

(** The shape of the two lookup patterns: the expression, the character
    that opens the lookup, white space, and the fragment up to the end, of
    the characters of a class. *)
Definition fragment_pattern (opening : ascii) (p : ascii -> bool) : regex :=
  Seqs [Patterns.expression 1; Chr (chr_is opening); Patterns.ws_star;
        Group 2 (Star (Chr p)); Eol].

End Vocabulary.

(** * Properties *)

(** ** Escaping and unescaping of the fragment *)

Section Escaping.
Import PythonCompleter.

Lemma replace_chr_app old new a b :
  replace_chr old new (a ++ b) = replace_chr old new a ++ replace_chr old new b.
Proof.
  induction a as [|x a IH]; simpl; [reflexivity|].
  rewrite IH. destruct (Ascii.eqb x old); simpl; [|reflexivity].
  now rewrite <- app_assoc.
Qed.

(** The two passes of a wrapper act character by character. *)
Lemma wrapper_cons q a t :
  q <> backslash ->
  replace_chr q [backslash; q]
    (replace_chr backslash [backslash; backslash] (a :: t))
  = (if Ascii.eqb a backslash then [backslash; backslash]
     else if Ascii.eqb a q then [backslash; q] else [a])
    ++ replace_chr q [backslash; q]
         (replace_chr backslash [backslash; backslash] t).
Proof.
  intros Hq. cbn [replace_chr]. rewrite replace_chr_app. f_equal.
  destruct (Ascii.eqb_spec a backslash) as [->|Ha]; cbn [replace_chr].
  - destruct (Ascii.eqb_spec backslash q) as [E|_]; [congruence|reflexivity].
  - now rewrite app_nil_r.
Qed.

Lemma unwrapper_wrapper q t :
  q <> backslash -> q <> newline ->
  unwrapper (replace_chr q [backslash; q]
               (replace_chr backslash [backslash; backslash] t)) = t.
Proof.
  intros Hq Hn. induction t as [|a t IH]; [reflexivity|].
  rewrite wrapper_cons by assumption.
  destruct (Ascii.eqb_spec a backslash) as [->|Ha].
  - cbn. now rewrite IH.
  - destruct (Ascii.eqb_spec a q) as [->|Haq].
    + cbn. destruct (Ascii.eqb_spec q newline); [contradiction|].
      now rewrite IH.
    + cbn. destruct (Ascii.eqb_spec a backslash); [contradiction|].
      now rewrite IH.
Qed.

End Escaping.

(** C10.  Escaping a fragment with the wrapper of its quote style
    ([single_quoted_wrapper] or [double_quoted_wrapper]) and unescaping the
    result with [unwrapper] gives the fragment back, whatever backslashes and
    quotes it contains. *)
Theorem escape_unescape_roundtrip (q : Grammar.quote_style) (fragment : text) :
  PythonCompleter.unescape_func q (PythonCompleter.escape_func q fragment)
  = fragment.
Proof.
  destruct q; apply unwrapper_wrapper; discriminate.
Qed.

Example escape_single_example :
  PythonCompleter.single_quoted_wrapper (T "it's a\b")
  = T "it\'s a\\b".
Proof. reflexivity. Qed.

(** ** The aggregator *)

Section Aggregator.
Import Py PythonCompleter.
Variable h : host.
Variable co : collaborators.
Variable globals locals : env.


(** The substrings of the two-character string of the test. *)
Lemma in_triggers_iff (x : text) :
  str_contains (T "[.") x = true <-> x ∈ [[]; T "["; T "."; T "[."].
Proof.
  split.
  - intros H.
    destruct x as [|a [|b [|c x]]]; [set_solver| | |]; cbn in H;
      repeat match type of H with
             | context [Ascii.eqb ?u ?v] =>
                 destruct (Ascii.eqb_spec u v); subst; cbn in H
             end;
      try discriminate; set_solver.
  - intros H. repeat (apply elem_of_cons in H as [->|H]; [reflexivity|]).
    inversion H.
Qed.

End Aggregator.



(** ** The dictionary completer comes first *)

(** C5, as stated, fails: the dictionary completer yields a candidate whose
    insert text is neither ["["] nor ["."] (it is the empty name), and the
    path completer and Jedi are consulted all the same. *)
Lemma dictionary_first_counterexample :
  let d := DictionaryCompleter.get_completions Example.cpython
             empty_name_globals ∅ empty_name_document in
  let r := PythonCompleter.get_completions Example.cpython
             Example.collaborators0 empty_name_globals ∅ true
             empty_name_document true in
  (exists c, c ∈ d.1 /\ c_text c <> T "[" /\ c_text c <> T ".")
  /\ ~ (PythonCompleter.yielded r = d.1 /\ PythonCompleter.calls r = []).
Proof.
  split.
  - exists (mkCompletion [] 0 None None []).
    split; [vm_compute; apply list_elem_of_here|split; discriminate].
  - intros [_ H]. vm_compute in H. discriminate.
Qed.

(** C5, amended.  With dictionary completion enabled: when the dictionary
    completer yields a candidate whose insert text is not a substring of
    ["[."] (not one of the empty text, ["["], ["."] and ["[."]), the request
    yields exactly the candidates of the dictionary completer and calls
    neither the path completer nor Jedi; when every candidate is such a
    substring (and the dictionary completer raised nothing), its candidates
    are followed by what the later steps yield. *)
Theorem dictionary_completions_first (h : Py.host)
    (co : PythonCompleter.collaborators) (globals locals : Py.env)
    (document : Document) (requested : bool) :
  let d := DictionaryCompleter.get_completions h globals locals document in
  let r := PythonCompleter.get_completions h co globals locals true document
             requested in
  let later := PythonCompleter.after_dictionary co globals locals document
                 requested in
  ((exists c, c ∈ d.1 /\ c_text c ∉ trigger_texts) ->
   PythonCompleter.yielded r = d.1 /\ PythonCompleter.calls r = [])
  /\ (d.2 = None -> (forall c, c ∈ d.1 -> c_text c ∈ trigger_texts) ->
      PythonCompleter.yielded r = d.1 ++ PythonCompleter.yielded later
      /\ PythonCompleter.calls r = PythonCompleter.calls later
      /\ PythonCompleter.raised r = PythonCompleter.raised later).
Proof.
  cbn zeta. unfold PythonCompleter.get_completions.
  set (d := DictionaryCompleter.get_completions h globals locals document).
  split.
  - intros (c & Hc & Ht).
    destruct d.2; [split; reflexivity|].
    assert (E : existsb PythonCompleter.counts_as_dict_completion d.1 = true).
    { apply existsb_exists. exists c. split; [now apply list_elem_of_In|].
      unfold PythonCompleter.counts_as_dict_completion.
      destruct (str_contains (T "[.") (c_text c)) eqn:E; [|reflexivity].
      apply in_triggers_iff in E. contradiction. }
    rewrite E. split; reflexivity.
  - intros Hn Hall. rewrite Hn.
    assert (E : existsb PythonCompleter.counts_as_dict_completion d.1 = false).
    { apply not_true_is_false. intros E.
      apply existsb_exists in E as (c & Hc & Ht).
      apply list_elem_of_In, Hall, in_triggers_iff in Hc.
      unfold PythonCompleter.counts_as_dict_completion in Ht.
      rewrite Hc in Ht. discriminate. }
    rewrite E. repeat split; reflexivity.
Qed.

Lemma dictionary_completions_first_witness :
  (let d := DictionaryCompleter.get_completions Example.cpython dict_d_globals
              ∅ (mkDocument (T "d[") 2) in
   let r := PythonCompleter.get_completions Example.cpython
              Example.collaborators0 dict_d_globals ∅ true
              (mkDocument (T "d[") 2) true in
   PythonCompleter.yielded r = d.1 /\ PythonCompleter.calls r = [])
  /\ (let r := PythonCompleter.get_completions Example.cpython
                 Example.collaborators0 list_xs_globals ∅ true
                 (mkDocument (T "xs") 2) true in
      PythonCompleter.calls r
      = [PythonCompleter.CallPathCompleter; PythonCompleter.CallJedi]).
Proof.
  split.
  - apply (dictionary_completions_first Example.cpython Example.collaborators0
             dict_d_globals ∅ (mkDocument (T "d[") 2) true).
    exists (mkCompletion (T "'a']") 0 (Some (T "['a']")) (Some (T "1")) []).
    split; [vm_compute; apply list_elem_of_here|].
    vm_compute. intros H.
    repeat (apply elem_of_cons in H as [H|H]; [discriminate|]).
    inversion H.
  - cbn zeta.
    destruct (dictionary_completions_first Example.cpython
                Example.collaborators0 list_xs_globals ∅
                (mkDocument (T "xs") 2) true) as [_ H].
    destruct H as (_ & H & _).
    + vm_compute; reflexivity.
    + intros c Hc. vm_compute in Hc.
      apply list_elem_of_singleton in Hc. subst c. vm_compute.
      apply list_elem_of_further, list_elem_of_here.
    + rewrite H. vm_compute; reflexivity.
Defined.

(** ** Item lookup with a fragment that parses as a number *)

(** When the fragment parses as an integer, the first key whose [str] can be
    taken ends the generator with a [TypeError]: [startswith] is given the
    integer. *)
Lemma dict_completions_int_fragment (h : Py.host) (key : text) (z : Z)
    (k v : Py.value) (sk : text) (items : list (Py.value * Py.value)) :
  Py.literal_eval h key = Py.Ok (Py.VInt z) ->
  Py.str k = Some sk ->
  DictionaryCompleter.dict_completions h key ((k, v) :: items)
  = gen_raise Py.TypeError.
Proof.
  intros Hl Hs. unfold DictionaryCompleter.dict_completions.
  cbn [DictionaryCompleter.eval_key]. rewrite Hl.
  cbn [gen_for fst snd]. rewrite Hs. reflexivity.
Qed.

(** C2, at the failing input: with [d = {'a': 1, 'bb': 2}] and the text
    [d[1], the request ends with a [TypeError] that nothing catches: it
    leaves [PythonCompleter.get_completions], after no completion at all. *)
Theorem item_lookup_integer_fragment_raises
    (co : PythonCompleter.collaborators) (requested : bool) :
  let r := PythonCompleter.get_completions Example.cpython co dict_d_globals ∅
             true (mkDocument (T "d[1") 3) requested in
  PythonCompleter.raised r = Some Py.TypeError
  /\ PythonCompleter.yielded r = [].
Proof.
  cbn zeta. unfold PythonCompleter.get_completions.
  replace (DictionaryCompleter.get_completions Example.cpython dict_d_globals
             ∅ (mkDocument (T "d[1") 3))
    with (gen_raise Py.TypeError) by (vm_compute; reflexivity).
  split; reflexivity.
Qed.

(** ** The grammar inside a triple-quoted region *)

(** C4, at the failing input: the cursor is in the body of the second
    triple-quoted string, and the grammar reports a single-quoted string
    with the fragment [c].  The body of the first region runs over its own
    closing quotes: two quotes pass by the alternative with [(?!^)]. *)
Theorem triple_double_body_misclassified :
  Grammar.grammar_match open_triple_double
  = Some (Grammar.SingleQuoted, T "c").
Proof. vm_compute. reflexivity. Qed.

(** The same text with the two kinds of quote exchanged is not matched: the
    alternative for ['''] has the lookahead [(?!')] in that place. *)
Example triple_single_body_not_matched :
  Grammar.grammar_match
    (T "'''a''' ''' " ++ [dquote] ++ T "c") = None.
Proof. vm_compute. reflexivity. Qed.

(** ** Generators that filter a list *)


Lemma gen_for_filter {A : Type} (l : list A) (p : A -> bool)
    (mk : A -> Completion) :
  gen_for l (fun x => if p x then gen_yield (mk x) else gen_nil)
  = (map mk (List.filter p l), None).
Proof.
  induction l as [|x l IH]; [reflexivity|].
  cbn [gen_for List.filter]. rewrite IH.
  destruct (p x); reflexivity.
Qed.

(** ** A lookup that raises *)

(** C1, as stated, fails for the attribute lookup: on an undefined name the
    lookup raises, and candidates are yielded all the same (the names of
    [None] that start with the fragment). *)
Lemma lookup_failure_counterexample :
  lookup_raises Example.cpython ∅ ∅ Patterns.attribute_lookup_pattern
    object_var_of_groups2 (T "undefined.__c") = true
  /\ DictionaryCompleter._get_attribute_completions Example.cpython ∅
       (T "undefined.__c") ∅
     = ([attribute_completion (T "__c") (T "__class__")], None)
  /\ DictionaryCompleter._get_attribute_completions Example.cpython ∅
       (T "undefined.__c") ∅ <> gen_nil.
Proof.
  split; [vm_compute; reflexivity|].
  split; [vm_compute; reflexivity|].
  vm_compute. discriminate.
Qed.

(** C1, amended.  When [eval] of the expression a pattern matched raises,
    the lookup gives [None]: the trigger step and the item lookup yield
    nothing, the attribute lookup yields the names [dir] lists for [None]
    that start with the fragment its pattern captured, and none of the
    three raises; the request is the three steps one after the other, so
    that a failure in one step leaves the other two to run. *)
Theorem lookup_failure_is_none (h : Py.host) (globals locals : Py.env)
    (document : Document) :
  let t := text_before_cursor document in
  let tl := DictionaryCompleter.loop_locals h globals locals t in
  let triggers :=
    DictionaryCompleter._get_expression_completions h globals t tl in
  let items :=
    DictionaryCompleter._get_item_lookup_completions h globals t tl in
  let attributes :=
    DictionaryCompleter._get_attribute_completions h globals t tl in
  (lookup_raises h globals tl Patterns.expression_pattern
     object_var_of_groups t = true ->
   triggers = gen_nil)
  /\ (lookup_raises h globals tl Patterns.item_lookup_pattern
        object_var_of_groups2 t = true ->
      items = gen_nil)
  /\ (lookup_raises h globals tl Patterns.attribute_lookup_pattern
        object_var_of_groups2 t = true ->
      forall names, Py.dir h Py.VNone = Py.Ok names ->
      exists object_var attr_name,
        lookup_match Patterns.attribute_lookup_pattern t
        = Some (object_var, attr_name)
        /\ attributes
           = (map (attribute_completion attr_name)
                (List.filter (fun name => startswith name attr_name)
                   (DictionaryCompleter._sort_attribute_names names)),
              None))
  /\ DictionaryCompleter.get_completions h globals locals document
     = gen_seq triggers (gen_seq items attributes).
Proof.
  cbn zeta.
  set (t := text_before_cursor document).
  set (tl := DictionaryCompleter.loop_locals h globals locals t).
  unfold lookup_raises, lookup_match, object_var_of_groups,
    object_var_of_groups2.
  split; [|split; [|split; [|reflexivity]]].
  - unfold DictionaryCompleter._get_expression_completions.
    destruct (Re.search _ t) as [[[st e] c]|]; [|reflexivity].
    destruct (Re.group c 1) as [obj|]; [|reflexivity].
    unfold DictionaryCompleter._lookup.
    destruct (Py.eval h _ _ _); [discriminate|reflexivity].
  - unfold DictionaryCompleter._get_item_lookup_completions.
    destruct (Re.search _ t) as [[[st e] c]|]; [|reflexivity].
    destruct (Patterns.groups2 c) as [[obj key]|]; [|reflexivity].
    unfold DictionaryCompleter._lookup. cbn [fmap option_fmap option_map fst].
    destruct (Py.eval h _ _ _); [discriminate|reflexivity].
  - unfold DictionaryCompleter._get_attribute_completions.
    destruct (Re.search _ t) as [[[st e] c]|]; [|discriminate].
    destruct (Patterns.groups2 c) as [[obj attr_name]|]; [|discriminate].
    unfold DictionaryCompleter._lookup. cbn [fmap option_fmap option_map fst].
    destruct (Py.eval h _ _ _); [discriminate|]. intros _ names Hdir.
    exists obj, attr_name. split; [reflexivity|].
    rewrite Hdir. apply gen_for_filter.
Qed.

Lemma lookup_failure_is_none_witness :
  DictionaryCompleter._get_expression_completions Example.cpython ∅
    (T "undefined") ∅ = gen_nil
  /\ DictionaryCompleter._get_item_lookup_completions Example.cpython ∅
       (T "undefined[") ∅ = gen_nil
  /\ exists object_var attr_name,
       lookup_match Patterns.attribute_lookup_pattern (T "undefined.__c")
       = Some (object_var, attr_name)
       /\ DictionaryCompleter._get_attribute_completions Example.cpython ∅
            (T "undefined.__c") ∅
          = (map (attribute_completion attr_name)
               (List.filter (fun name => startswith name attr_name)
                  (DictionaryCompleter._sort_attribute_names
                     Example.none_names)),
             None).
Proof.
  destruct (lookup_failure_is_none Example.cpython ∅ ∅
              (mkDocument (T "undefined") 9)) as (H1 & _).
  destruct (lookup_failure_is_none Example.cpython ∅ ∅
              (mkDocument (T "undefined[") 10)) as (_ & H2 & _).
  destruct (lookup_failure_is_none Example.cpython ∅ ∅
              (mkDocument (T "undefined.__c") 13)) as (_ & _ & H3 & _).
  split; [|split].
  - refine (H1 _). vm_compute. reflexivity.
  - refine (H2 _). vm_compute. reflexivity.
  - refine (H3 _ Example.none_names _); vm_compute; reflexivity.
Defined.

(** ** Item lookup *)

Lemma yield_item_spec (key : text) (k v : Py.value) :
  DictionaryCompleter.yield_item key k v
  = (match item_candidate key k v with Some c => [c] | None => [] end, None).
Proof.
  unfold DictionaryCompleter.yield_item, DictionaryCompleter._do_repr,
    item_candidate.
  destruct (Py.repr k), (Py.repr v); reflexivity.
Qed.

Lemma gen_seq_pure (l1 l2 : list Completion) :
  gen_seq (l1, None) (l2, None) = (l1 ++ l2, None).
Proof. reflexivity. Qed.

Lemma index_loop_spec (key : text) (l : list Py.value) (ks : list nat) :
  Forall (fun k => k < length l) ks ->
  gen_for ks
    (fun k =>
       if startswith (Py.str_of_nat k) key then
         match l !! k with
         | Some v => DictionaryCompleter.yield_item key (Py.VInt (Z.of_nat k)) v
         | None => gen_raise Py.OtherError
         end
       else gen_nil)
  = (omap (fun k => match l !! k with
                    | Some v => item_candidate key (Py.VInt (Z.of_nat k)) v
                    | None => None
                    end)
       (List.filter (fun k => startswith (Py.str_of_nat k) key) ks), None).
Proof.
  induction 1 as [|k ks Hk _ IH]; [reflexivity|].
  cbn [gen_for List.filter]. rewrite IH.
  destruct (startswith (Py.str_of_nat k) key); [|reflexivity].
  apply lookup_lt_is_Some_2 in Hk as [v Hv].
  cbn [omap list_omap]. rewrite Hv, yield_item_spec.
  destruct (item_candidate key (Py.VInt (Z.of_nat k)) v); reflexivity.
Qed.

Lemma forallb_digit_str (key : text) :
  forallb is_digit key = true -> forallb str_isdigit key = true.
Proof.
  rewrite !forallb_forall. intros H c Hc. unfold str_isdigit.
  now rewrite (H c Hc).
Qed.

Lemma index_completions_spec (key : text) (l : list Py.value) :
  key = [] \/ forallb str_isdigit key = true ->
  DictionaryCompleter.index_completions key l = (index_candidates key l, None).
Proof.
  intros Hkey. unfold DictionaryCompleter.index_completions.
  assert (E : Nat.eqb (length key) 0 || forallb str_isdigit key = true).
  { destruct Hkey as [-> | ->]; [reflexivity|apply orb_true_r]. }
  rewrite E. apply index_loop_spec.
  apply Forall_forall. intros k Hk. apply list_elem_of_In, in_seq in Hk. lia.
Qed.

(** C8, as stated, fails: index 0 is below the length and its decimal form
    starts with the empty fragment, but no candidate is yielded for it,
    because the [repr] of the element raises. *)
Lemma index_completions_counterexample :
  lookup_match Patterns.item_lookup_pattern (T "xs[") = Some (T "xs", [])
  /\ DictionaryCompleter._lookup Example.cpython unprintable_globals (T "xs") ∅
     = Py.VList [unprintable]
  /\ List.filter (fun k => startswith (Py.str_of_nat k) [])
       (seq 0 (Nat.min (length [unprintable]) 1000)) = [0]
  /\ DictionaryCompleter._get_item_lookup_completions Example.cpython
       unprintable_globals (T "xs[") ∅ = gen_nil.
Proof. repeat split; vm_compute; reflexivity. Qed.

(** C8, amended.  When the item-lookup pattern matches, the expression
    resolves to a list or tuple and the fragment is empty or all digits, the
    candidates yielded are exactly those of the indices [k] below
    [min(len, 1000)] whose decimal form starts with the fragment and whose
    element has a [repr], in increasing order: insert text [repr(k) + "]"],
    display meta the [repr] of the element; nothing is raised. *)
Theorem index_completions_exact (h : Py.host) (globals temp_locals : Py.env)
    (t object_var key : text) (l : list Py.value) :
  lookup_match Patterns.item_lookup_pattern t = Some (object_var, key) ->
  DictionaryCompleter._lookup h globals object_var temp_locals = Py.VList l
  \/ DictionaryCompleter._lookup h globals object_var temp_locals = Py.VTuple l ->
  key = [] \/ forallb is_digit key = true ->
  DictionaryCompleter._get_item_lookup_completions h globals t temp_locals
  = (index_candidates key l, None).
Proof.
  unfold lookup_match, DictionaryCompleter._get_item_lookup_completions.
  intros Hm Hl Hkey.
  destruct (Re.search _ t) as [[[st e] c]|]; [|discriminate].
  assert (Hkey' : key = [] \/ forallb str_isdigit key = true)
    by (destruct Hkey as [?|?]; [now left|right; now apply forallb_digit_str]).
  rewrite Hm. destruct Hl as [-> | ->]; now apply index_completions_spec.
Qed.

Lemma index_completions_exact_witness :
  DictionaryCompleter._get_item_lookup_completions Example.cpython
    list_xs_globals (T "xs[1") ∅
  = (index_candidates (T "1") [Py.VInt 10; Py.VInt 20; Py.VInt 30], None).
Proof.
  apply (index_completions_exact Example.cpython list_xs_globals ∅
           (T "xs[1") (T "xs") (T "1") [Py.VInt 10; Py.VInt 20; Py.VInt 30]).
  - vm_compute; reflexivity.
  - left. vm_compute; reflexivity.
  - right. vm_compute; reflexivity.
Defined.

(** The example of the specification: [xs = [10, 20, 30]] and the text
    [xs[1] give the one candidate of index 1. *)
Example index_completions_example :
  DictionaryCompleter._get_item_lookup_completions Example.cpython
    list_xs_globals (T "xs[1") ∅
  = ([item_completion (T "1") (T "1") (T "20")], None).
Proof. vm_compute. reflexivity. Qed.

(** The cap: of a list of 1200 elements, the candidates for the empty
    fragment are those of the indices 0 to 999. *)
Example index_completions_cap :
  length (index_candidates [] (repeat Py.VNone 1200)) = 1000.
Proof. vm_compute. reflexivity. Qed.

(** *** The keys of a dictionary *)

(** With a fragment that stands for a text [p] (no candidate parses, or the
    first that parses is a string), the candidates are exactly those of the
    keys whose [str] starts with [p] and that have a [repr], as has their
    value; a key or value without [repr] loses its own candidate only. *)
Lemma dict_completions_str_fragment (h : Py.host) (key p : text)
    (items : list (Py.value * Py.value)) :
  DictionaryCompleter.eval_key h (Py.VStr key)
    [key; key ++ [dquote]; key ++ [squote]] = Py.Ok (Py.VStr p) ->
  Forall (fun kv => is_Some (Py.str kv.1)) items ->
  DictionaryCompleter.dict_completions h key items
  = (key_candidates key p items, None).
Proof.
  intros Hk Hs. unfold DictionaryCompleter.dict_completions. rewrite Hk.
  unfold key_candidates.
  induction Hs as [|[k v] items [sk Hsk] _ IH]; [reflexivity|].
  cbn [gen_for List.filter]. rewrite IH.
  unfold key_starts_with at 2. cbn [fst snd] in *. rewrite Hsk.
  cbn [Py.startswith_obj].
  destruct (startswith sk p); [|reflexivity].
  rewrite yield_item_spec. cbn [omap list_omap fst snd].
  destruct (item_candidate key k v); reflexivity.
Qed.

(** The example of the specification: [d = {'a': 1, 'bb': 2}] and the text
    [d[] give the candidates of the two keys. *)
Example dict_completions_example :
  DictionaryCompleter._get_item_lookup_completions Example.cpython
    dict_d_globals (T "d[") ∅
  = ([item_completion [] (T "'a'") (T "1");
      item_completion [] (T "'bb'") (T "2")], None).
Proof. vm_compute. reflexivity. Qed.

(** A key without [repr] is passed over, the others are yielded. *)
Example dict_completions_skip_example :
  DictionaryCompleter.dict_completions Example.cpython []
    [(Py.VStr (T "a"), Py.VInt 1);
     (Py.VObj [] (Some true) None (Some (T "k")), Py.VInt 2);
     (Py.VStr (T "c"), unprintable);
     (Py.VStr (T "bb"), Py.VInt 4)]
  = ([item_completion [] (T "'a'") (T "1");
      item_completion [] (T "'bb'") (T "4")], None).
Proof. vm_compute. reflexivity. Qed.

(** C7, at the failing input: with [d = {1: 'x'}] and the text [d[1] the
    pattern matches, the expression resolves to the dictionary, the fragment
    parses as the integer 1 and the string form of the key 1 starts with
    its decimal form; yet no candidate is yielded for the key: the
    generator ends with a [TypeError]. *)
Theorem integer_key_candidate_lost :
  lookup_match Patterns.item_lookup_pattern (T "d[1") = Some (T "d", T "1")
  /\ Py.literal_eval Example.cpython (T "1") = Py.Ok (Py.VInt 1)
  /\ Py.str (Py.VInt 1) = Some (T "1")
  /\ item_candidate (T "1") (Py.VInt 1) (Py.VStr (T "x"))
     = Some (item_completion (T "1") (T "1") (T "'x'"))
  /\ DictionaryCompleter._get_item_lookup_completions Example.cpython
       int_key_globals (T "d[1") ∅ = gen_raise Py.TypeError.
Proof. repeat split; vm_compute; reflexivity. Qed.

(** ** The loop variables *)

Section LoopVariables.
Import Py.
Variable h : host.
Variable globals : env.


End LoopVariables.


(** The attribute lookup, when its pattern matches and [dir] of the value
    looked up lists [names]: the names, sorted, that start with the
    fragment. *)
Lemma attribute_completions_spec (h : Py.host) (globals temp_locals : Py.env)
    (t object_var attr_name : text) (names : list text) :
  lookup_match Patterns.attribute_lookup_pattern t
  = Some (object_var, attr_name) ->
  Py.dir h (DictionaryCompleter._lookup h globals object_var temp_locals)
  = Py.Ok names ->
  DictionaryCompleter._get_attribute_completions h globals t temp_locals
  = (map (attribute_completion attr_name)
       (List.filter (fun name => startswith name attr_name)
          (DictionaryCompleter._sort_attribute_names names)),
     None).
Proof.
  unfold lookup_match, DictionaryCompleter._get_attribute_completions.
  destruct (Re.search _ t) as [[[st e] c]|]; [|discriminate].
  intros -> ->. apply gen_for_filter.
Qed.

(** The attribute lookup, when [dir] of the value looked up raises: the
    exception leaves the generator. *)
Lemma attribute_completions_raise (h : Py.host) (globals temp_locals : Py.env)
    (t object_var attr_name : text) (e : Py.exn) :
  lookup_match Patterns.attribute_lookup_pattern t
  = Some (object_var, attr_name) ->
  Py.dir h (DictionaryCompleter._lookup h globals object_var temp_locals)
  = Py.Raise e ->
  DictionaryCompleter._get_attribute_completions h globals t temp_locals
  = gen_raise e.
Proof.
  unfold lookup_match, DictionaryCompleter._get_attribute_completions.
  destruct (Re.search _ t) as [[[st e'] c]|]; [|discriminate].
  intros -> ->. reflexivity.
Qed.





(** ** The grammar on a cursor inside a string *)

(** *** Forced steps of the matcher *)

Section Forced.
Import Re.

Lemma chr_ok (p : ascii -> bool) (a : ascii) (pos : nat) (s : text) (c : caps)
    (k : cont) :
  p a = true -> rmatch (Chr p) pos (a :: s) c k = k (S pos) s c.
Proof. intros H. cbn. now rewrite H. Qed.

Lemma chr_fail (p : ascii -> bool) (a : ascii) (pos : nat) (s : text)
    (c : caps) (k : cont) :
  p a = false -> rmatch (Chr p) pos (a :: s) c k = None.
Proof. intros H. cbn. now rewrite H. Qed.

Lemma chr_not_elim (l : list ascii) (a x : ascii) :
  chr_not l a = true -> In x l -> chr_is x a = false.
Proof.
  unfold chr_not, chr_is. intros H Hx.
  apply negb_true_iff in H.
  destruct (Ascii.eqb x a) eqn:E; [|reflexivity].
  apply Ascii.eqb_eq in E. subst x.
  assert (E : existsb (Ascii.eqb a) l = true).
  { apply existsb_exists. exists a. split; [assumption|apply Ascii.eqb_refl]. }
  congruence.
Qed.

Lemma chr_not_weaken (l l' : list ascii) (a : ascii) :
  chr_not l a = true -> incl l' l -> chr_not l' a = true.
Proof.
  unfold chr_not. intros H Hi. apply negb_true_iff in H. apply negb_true_iff.
  apply not_true_is_false. intros E. apply existsb_exists in E as (x & Hx & E).
  assert (E' : existsb (Ascii.eqb a) l = true).
  { apply existsb_exists. exists x. split; [now apply Hi|assumption]. }
  congruence.
Qed.

(** A repetition whose iteration is forced to take [e] and whose
    continuation does not match before [e]. *)
Lemma star_loop_step (m : nat -> text -> caps -> cont -> option result)
    (k : cont) (fuel pos : nat) (e rest : text) (c : caps) :
  (forall K, m pos (e ++ rest) c K = K (pos + length e) rest c) ->
  0 < length e ->
  k pos (e ++ rest) c = None ->
  star_loop m k (S fuel) pos (e ++ rest) c
  = star_loop m k fuel (pos + length e) rest c.
Proof.
  intros Hm He Hk. cbn [star_loop]. rewrite Hm.
  replace (Nat.ltb pos (pos + length e)) with true
    by (symmetry; apply Nat.ltb_lt; lia).
  rewrite Hk. now destruct (star_loop m k fuel _ rest c).
Qed.

(** The same when the rest of the repetition is known to succeed. *)
Lemma star_loop_step_some (m : nat -> text -> caps -> cont -> option result)
    (k : cont) (fuel pos : nat) (e rest : text) (c : caps) (r : result) :
  (forall K, m pos (e ++ rest) c K = K (pos + length e) rest c) ->
  0 < length e ->
  star_loop m k fuel (pos + length e) rest c = Some r ->
  star_loop m k (S fuel) pos (e ++ rest) c = Some r.
Proof.
  intros Hm He Hr. cbn [star_loop]. rewrite Hm.
  replace (Nat.ltb pos (pos + length e)) with true
    by (symmetry; apply Nat.ltb_lt; lia).
  now rewrite Hr.
Qed.

(** A repetition that cannot take one more iteration. *)
Lemma star_loop_stop (m : nat -> text -> caps -> cont -> option result)
    (k : cont) (fuel pos : nat) (s : text) (c : caps) :
  (forall K, m pos s c K = None) ->
  star_loop m k fuel pos s c = k pos s c.
Proof. intros Hm. destruct fuel; cbn [star_loop]; [|rewrite Hm]; reflexivity. Qed.

End Forced.

(** *** The text of strings *)

Section Elements.
Import Re.

Lemma element_plain p a pos s c K :
  p a = true -> chr_is backslash a = false ->
  rmatch (element p) pos (a :: s) c K = K (S pos) s c.
Proof.
  intros Hp Hb. unfold element. cbn [rmatch]. rewrite Hp, Hb.
  now destruct (K (S pos) s c).
Qed.

Lemma element_escape p a pos s c K :
  p backslash = false ->
  rmatch (element p) pos (backslash :: a :: s) c K = K (S (S pos)) s c.
Proof.
  intros Hp. unfold element, Any. cbn [rmatch]. rewrite Hp.
  unfold chr_is. now rewrite Ascii.eqb_refl.
Qed.

Lemma element_stop p a pos s c K :
  p a = false -> chr_is backslash a = false ->
  rmatch (element p) pos (a :: s) c K = None.
Proof. intros Hp Hb. unfold element. cbn [rmatch]. now rewrite Hp, Hb. Qed.

Lemma element_nil p pos c K : rmatch (element p) pos [] c K = None.
Proof. reflexivity. Qed.

Lemma chr_not_self l a : In a l -> chr_not l a = false.
Proof.
  intros H. unfold chr_not. apply negb_false_iff, existsb_exists.
  exists a. split; [assumption|apply Ascii.eqb_refl].
Qed.

Variable q : ascii.
Hypothesis q_not_backslash : chr_is backslash q = false.

Lemma q_not_backslash' : chr_is q backslash = false.
Proof.
  unfold chr_is in *. rewrite <- q_not_backslash.
  destruct (Ascii.eqb_spec q backslash), (Ascii.eqb_spec backslash q);
    congruence.
Qed.

(** The body of a complete string is taken whole, up to its closing
    quote, when what follows starts with that quote. *)
Lemma star_string_body (b rest : text) (k : cont) :
  string_body q b ->
  (forall pos a s c, chr_is q a = false -> k pos (a :: s) c = None) ->
  forall fuel pos c, length b <= fuel ->
  star_loop (rmatch (element (chr_not [q; backslash]))) k fuel pos
    (b ++ q :: rest) c
  = k (pos + length b) (q :: rest) c.
Proof.
  intros Hb Hk. induction Hb as [|a b Ha _ IH|a b _ IH]; intros fuel pos c Hf.
  - cbn [app length]. rewrite Nat.add_0_r. apply star_loop_stop. intros K.
    apply element_stop; [|assumption].
    apply chr_not_self. now left.
  - destruct fuel as [|fuel]; [cbn in Hf; lia|].
    change (a :: b ++ q :: rest) with ([a] ++ (b ++ q :: rest)).
    rewrite (star_loop_step _ _ _ _ [a] (b ++ q :: rest)).
    + rewrite IH by (cbn in Hf; lia). f_equal. cbn [length]. lia.
    + intros K. cbn [app length]. rewrite Nat.add_1_r.
      apply element_plain; [assumption|].
      apply (chr_not_elim _ _ _ Ha). right. now left.
    + cbn. lia.
    + apply Hk. apply (chr_not_elim _ _ _ Ha). now left.
  - destruct fuel as [|fuel]; [cbn in Hf; lia|].
    change (backslash :: a :: b ++ q :: rest)
      with ([backslash; a] ++ (b ++ q :: rest)).
    rewrite (star_loop_step _ _ _ _ [backslash; a] (b ++ q :: rest)).
    + rewrite IH by (cbn in Hf; lia). f_equal. cbn [length]. lia.
    + intros K. cbn [app length].
      replace (pos + 2) with (S (S pos)) by lia.
      apply element_escape. apply chr_not_self. right. now left.
    + cbn. lia.
    + apply Hk, q_not_backslash'.
Qed.

(** No closing quote is found in a fragment. *)
Lemma star_fragment_fails (frag : text) (k : cont) (p : ascii -> bool) :
  fragment q frag ->
  (forall a, chr_not [newline; q; backslash] a = true -> p a = true) ->
  p backslash = false ->
  (forall pos a s c, chr_is q a = false -> k pos (a :: s) c = None) ->
  (forall pos c, k pos [] c = None) ->
  forall fuel pos c,
  star_loop (rmatch (element p)) k fuel pos frag c = None.
Proof.
  intros Hfr Hp Hpb Hk Hnil.
  induction Hfr as [|a b Ha _ IH|a b _ IH]; intros fuel pos c.
  - rewrite star_loop_stop by (intros K; apply element_nil). apply Hnil.
  - assert (Hq : chr_is q a = false).
    { apply (chr_not_elim _ _ _ Ha). right. now left. }
    destruct fuel as [|fuel]; cbn [star_loop]; [now apply Hk|].
    rewrite element_plain.
    + rewrite (proj2 (Nat.ltb_lt pos (S pos))) by lia.
      rewrite IH. now apply Hk.
    + now apply Hp.
    + apply (chr_not_elim _ _ _ Ha). right. right. now left.
  - destruct fuel as [|fuel]; cbn [star_loop];
      [apply Hk, q_not_backslash'|].
    rewrite element_escape by assumption.
    rewrite (proj2 (Nat.ltb_lt pos (S (S pos)))) by lia.
    rewrite IH. apply Hk, q_not_backslash'.
Qed.

(** A fragment is taken whole by the repetition of the current string. *)
Lemma star_fragment (frag : text) (k : cont) (r : result) :
  fragment q frag ->
  forall fuel pos c, length frag <= fuel ->
  k (pos + length frag) [] c = Some r ->
  star_loop (rmatch (element (chr_not [newline; q; backslash]))) k fuel pos
    frag c = Some r.
Proof.
  intros Hfr. induction Hfr as [|a b Ha _ IH|a b _ IH]; intros fuel pos c Hf Hr.
  - cbn [length] in Hr. rewrite Nat.add_0_r in Hr.
    rewrite star_loop_stop by (intros K; apply element_nil). exact Hr.
  - destruct fuel as [|fuel]; [cbn in Hf; lia|].
    change (a :: b) with ([a] ++ b).
    apply (star_loop_step_some _ _ _ _ [a] b).
    + intros K. cbn [app length]. rewrite Nat.add_1_r.
      apply element_plain; [assumption|].
      apply (chr_not_elim _ _ _ Ha). right. right. now left.
    + cbn. lia.
    + apply IH; [cbn in Hf; lia|].
      rewrite <- Hr. f_equal. cbn [length]. lia.
  - destruct fuel as [|fuel]; [cbn in Hf; lia|].
    change (backslash :: a :: b) with ([backslash; a] ++ b).
    apply (star_loop_step_some _ _ _ _ [backslash; a] b).
    + intros K. cbn [app length].
      replace (pos + 2) with (S (S pos)) by lia.
      apply element_escape. apply chr_not_self. right. right. now left.
    + cbn. lia.
    + apply IH; [cbn in Hf; lia|].
      rewrite <- Hr. f_equal. cbn [length]. lia.
Qed.

End Elements.

(** *** The pieces before the current string *)

Section Pieces.
Import Re Grammar.

Lemma lit_ok (l s : text) pos c K :
  rmatch (Lit l) pos (l ++ s) c K = K (pos + length l) s c.
Proof.
  revert pos. induction l as [|a l IH]; intros pos.
  - cbn. now rewrite Nat.add_0_r.
  - cbn [Lit rmatch app length]. unfold chr_is at 1. rewrite Ascii.eqb_refl.
    rewrite IH. f_equal. lia.
Qed.

Lemma lit_fail (l s : text) pos c K :
  startswith s l = false -> rmatch (Lit l) pos s c K = None.
Proof.
  revert s pos. induction l as [|a l IH]; intros s pos H.
  - destruct s; discriminate.
  - destruct s as [|b s]; [reflexivity|].
    cbn [Lit rmatch]. cbn [startswith] in H. unfold chr_is at 1.
    destruct (Ascii.eqb a b); [|reflexivity]. now apply IH.
Qed.

Lemma startswith_head (a b : ascii) (l s : text) :
  chr_is a b = false -> startswith (b :: s) (a :: l) = false.
Proof. unfold chr_is. intros H. cbn. now rewrite H. Qed.

Lemma triple_single_fail s pos c K :
  startswith s (T "'''") = false -> rmatch triple_single pos s c K = None.
Proof. intros H. unfold triple_single. cbn [Seqs rmatch]. now apply lit_fail. Qed.

Lemma triple_double_fail s pos c K :
  startswith s ddd = false -> rmatch triple_double pos s c K = None.
Proof. intros H. unfold triple_double. cbn [Seqs rmatch]. now apply lit_fail. Qed.

Lemma comment_fail a s pos c K :
  chr_is "#"%char a = false -> rmatch comment pos (a :: s) c K = None.
Proof. intros H. unfold comment. cbn [Seqs rmatch]. now rewrite H. Qed.

Lemma double_quoted_fail a s pos c K :
  chr_is dquote a = false -> rmatch double_quoted pos (a :: s) c K = None.
Proof. intros H. unfold double_quoted. cbn [Seqs rmatch]. now rewrite H. Qed.

Lemma single_quoted_fail a s pos c K :
  chr_is squote a = false -> rmatch single_quoted pos (a :: s) c K = None.
Proof. intros H. unfold single_quoted. cbn [Seqs rmatch]. now rewrite H. Qed.

(** The alternatives of a piece, one after the other. *)
Lemma before_piece_alts s pos c K :
  rmatch before_piece pos s c K
  = match rmatch (Chr (chr_not [squote; dquote; "#"%char])) pos s c K with
    | Some x => Some x
    | None =>
    match rmatch triple_single pos s c K with
    | Some x => Some x
    | None =>
    match rmatch triple_double pos s c K with
    | Some x => Some x
    | None =>
    match rmatch comment pos s c K with
    | Some x => Some x
    | None =>
    match rmatch double_quoted pos s c K with
    | Some x => Some x
    | None => rmatch single_quoted pos s c K
    end end end end end.
Proof. reflexivity. Qed.

Lemma piece_plain a s pos c K :
  chr_not [squote; dquote; "#"%char] a = true ->
  rmatch before_piece pos (a :: s) c K = K (S pos) s c.
Proof.
  intros Ha. rewrite before_piece_alts, (chr_ok _ _ _ _ _ _ Ha).
  destruct (K (S pos) s c); [reflexivity|].
  rewrite triple_single_fail, triple_double_fail, comment_fail,
    double_quoted_fail, single_quoted_fail; try reflexivity.
  - apply (chr_not_elim _ _ _ Ha). now left.
  - apply (chr_not_elim _ _ _ Ha). right. now left.
  - apply (chr_not_elim _ _ _ Ha). right. right. now left.
  - apply startswith_head, (chr_not_elim _ _ _ Ha). right. now left.
  - apply startswith_head, (chr_not_elim _ _ _ Ha). now left.
Qed.

Lemma seq_unfold r1 r2 pos s c K :
  rmatch (Seq r1 r2) pos s c K
  = rmatch r1 pos s c (fun pos1 s1 c1 => rmatch r2 pos1 s1 c1 K).
Proof. reflexivity. Qed.

Lemma not_ahead_unfold l pos s c K :
  rmatch (NotAhead l) pos s c K = if startswith s l then None else K pos s c.
Proof. reflexivity. Qed.

Lemma star_unfold r pos s c K :
  rmatch (Star r) pos s c K = star_loop (rmatch r) K (length s) pos s c.
Proof. reflexivity. Qed.

(** A run of characters of a class, up to the first character outside
    it. *)
Lemma star_class (p : ascii -> bool) (b : text) (x : ascii) (rest : text)
    (k : cont) :
  forallb p b = true -> p x = false ->
  (forall pos a s c, p a = true -> k pos (a :: s) c = None) ->
  forall fuel pos c, length b <= fuel ->
  star_loop (rmatch (Chr p)) k fuel pos (b ++ x :: rest) c
  = k (pos + length b) (x :: rest) c.
Proof.
  intros Hb Hx Hk. induction b as [|a b IH]; intros fuel pos c Hf.
  - cbn [app length]. rewrite Nat.add_0_r. apply star_loop_stop.
    intros K. now apply chr_fail.
  - cbn [forallb] in Hb. apply andb_true_iff in Hb as [Ha Hb].
    destruct fuel as [|fuel]; [cbn in Hf; lia|].
    change ((a :: b) ++ x :: rest) with ([a] ++ (b ++ x :: rest)).
    rewrite (star_loop_step _ _ _ _ [a] (b ++ x :: rest)).
    + rewrite IH by (assumption || (cbn in Hf; lia)).
      f_equal. cbn [length]. lia.
    + intros K. cbn [app length]. rewrite Nat.add_1_r. now apply chr_ok.
    + cbn. lia.
    + now apply Hk.
Qed.

Lemma piece_comment b rest pos c K :
  forallb (chr_not [newline]) b = true -> rest <> [] ->
  rmatch before_piece pos ("#"%char :: b ++ newline :: rest) c K
  = K (S (S (pos + length b))) rest c.
Proof.
  intros Hb Hrest. rewrite before_piece_alts.
  rewrite chr_fail by reflexivity.
  rewrite triple_single_fail, triple_double_fail by reflexivity.
  assert (E : rmatch comment pos ("#"%char :: b ++ newline :: rest) c K
              = K (S (S (pos + length b))) rest c).
  { unfold comment. cbn [Seqs]. rewrite seq_unfold, chr_ok by reflexivity.
    rewrite seq_unfold, star_unfold.
    rewrite star_class; try assumption; try reflexivity.
    - cbn [rmatch]. unfold chr_is at 1. rewrite Ascii.eqb_refl.
      replace (S (S pos + length b)) with (S (S (pos + length b))) by lia.
      destruct (K _ rest c); [reflexivity|].
      destruct rest; [contradiction|reflexivity].
    - intros pos' a s c' Ha. cbn [rmatch].
      rewrite (chr_not_elim _ _ _ Ha) by now left.
      destruct s; [|reflexivity]. cbn [at_eol].
      assert (Hn := chr_not_elim _ _ newline Ha (or_introl eq_refl)).
      unfold chr_is in Hn.
      destruct (Ascii.eqb_spec a newline) as [->|]; [|reflexivity].
      now rewrite Ascii.eqb_refl in Hn.
    - rewrite length_app. cbn. lia. }
  rewrite E. destruct (K _ rest c); [reflexivity|].
  rewrite double_quoted_fail, single_quoted_fail; reflexivity.
Qed.

Lemma quoted_ok q b rest pos c K :
  chr_is backslash q = false ->
  string_body q b ->
  startswith (b ++ q :: rest) [q; q] = false ->
  rmatch (quoted q) pos (q :: b ++ q :: rest) c K
  = K (S (S (pos + length b))) rest c.
Proof.
  intros Hq Hb Hs. unfold quoted. cbn [Seqs].
  rewrite seq_unfold, chr_ok by apply Ascii.eqb_refl.
  rewrite seq_unfold, not_ahead_unfold, Hs.
  rewrite seq_unfold, star_unfold.
  rewrite star_string_body; try assumption.
  - rewrite chr_ok by apply Ascii.eqb_refl. f_equal.
  - intros pos' a s c' Ha. now apply chr_fail.
  - rewrite length_app. cbn. lia.
Qed.

Lemma quoted_open_fails q frag pos c K :
  chr_is backslash q = false ->
  fragment q frag ->
  rmatch (quoted q) pos (q :: frag) c K = None.
Proof.
  intros Hq Hf. unfold quoted. cbn [Seqs].
  rewrite seq_unfold, chr_ok by apply Ascii.eqb_refl.
  rewrite seq_unfold, not_ahead_unfold.
  destruct (startswith frag [q; q]); [reflexivity|].
  rewrite seq_unfold, star_unfold.
  apply star_fragment_fails with q; try assumption.
  - intros a Ha. apply (chr_not_weaken _ _ _ Ha).
    intros x [<-|[<-|[]]]; cbn; auto.
  - apply chr_not_self. right. now left.
  - intros pos' a s c' Ha. now apply chr_fail.
  - reflexivity.
Qed.

Lemma startswith_same (a : ascii) (l s : text) :
  startswith (a :: s) (a :: l) = startswith s l.
Proof. cbn. now rewrite Ascii.eqb_refl. Qed.

Lemma piece_single_quoted b rest pos c K :
  string_body squote b ->
  startswith (b ++ squote :: rest) [squote; squote] = false ->
  rmatch before_piece pos (squote :: b ++ squote :: rest) c K
  = K (S (S (pos + length b))) rest c.
Proof.
  intros Hb Hs. rewrite before_piece_alts.
  rewrite chr_fail by reflexivity.
  rewrite triple_single_fail
    by (change (T "'''") with [squote; squote; squote];
        now rewrite startswith_same).
  rewrite triple_double_fail, comment_fail, double_quoted_fail
    by reflexivity.
  change single_quoted with (quoted squote).
  now apply quoted_ok.
Qed.

Lemma piece_double_quoted b rest pos c K :
  string_body dquote b ->
  startswith (b ++ dquote :: rest) [dquote; dquote] = false ->
  rmatch before_piece pos (dquote :: b ++ dquote :: rest) c K
  = K (S (S (pos + length b))) rest c.
Proof.
  intros Hb Hs. rewrite before_piece_alts.
  rewrite chr_fail by reflexivity.
  rewrite triple_single_fail by reflexivity.
  rewrite triple_double_fail by (unfold ddd; now rewrite startswith_same).
  rewrite comment_fail by reflexivity.
  change double_quoted with (quoted dquote).
  rewrite quoted_ok by (assumption || reflexivity).
  destruct (K _ rest c); [reflexivity|].
  now rewrite single_quoted_fail.
Qed.

Lemma triple_single_unfold :
  triple_single
  = Seq (Lit (T "'''")) (Seq (Star triple_element) (Lit (T "'''"))).
Proof. reflexivity. Qed.

Lemma triple_element_plain a s pos c K :
  chr_not [squote; backslash] a = true ->
  rmatch triple_element pos (a :: s) c K = K (S pos) s c.
Proof.
  intros Ha.
  assert (Hq := chr_not_elim _ _ squote Ha (or_introl eq_refl)).
  assert (Hb := chr_not_elim _ _ backslash Ha (or_intror (or_introl eq_refl))).
  unfold triple_element. cbn [Alts Seqs Lit rmatch].
  rewrite Ha, Hq, Hb. now destruct (K (S pos) s c).
Qed.

Lemma triple_element_quote a s pos c K :
  chr_not [squote; backslash] a = true ->
  rmatch triple_element pos (squote :: a :: s) c K = K (S pos) (a :: s) c.
Proof.
  intros Ha.
  assert (Hq := chr_not_elim _ _ squote Ha (or_introl eq_refl)).
  unfold triple_element. cbn [Alts Seqs Lit rmatch startswith].
  change (chr_not [squote; backslash] squote) with false.
  change (chr_is squote squote) with true.
  change (chr_is backslash squote) with false.
  unfold chr_is in Hq. cbn iota. rewrite Hq. cbn [andb].
  unfold chr_is. rewrite Hq.
  now destruct (K (S pos) (a :: s) c).
Qed.

Lemma triple_element_quotes a s pos c K :
  chr_not [squote; backslash] a = true ->
  rmatch triple_element pos (squote :: squote :: a :: s) c K
  = K (S (S pos)) (a :: s) c.
Proof.
  intros Ha.
  assert (Hq := chr_not_elim _ _ squote Ha (or_introl eq_refl)).
  unfold triple_element. cbn [Alts Seqs Lit rmatch startswith].
  change (chr_not [squote; backslash] squote) with false.
  change (chr_is squote squote) with true.
  change (chr_is backslash squote) with false.
  change (Ascii.eqb squote squote) with true.
  unfold chr_is in Hq. cbn iota. cbn [andb]. rewrite Hq. cbn [andb].
  now destruct (K (S (S pos)) (a :: s) c).
Qed.

Lemma triple_element_stop s pos c K :
  rmatch triple_element pos (squote :: squote :: squote :: s) c K = None.
Proof. destruct s; reflexivity. Qed.

Lemma startswith_plain3 (q a : ascii) (s : text) :
  chr_not [q; backslash] a = true ->
  startswith (a :: s) [q; q; q] = false
  /\ startswith (q :: a :: s) [q; q; q] = false
  /\ startswith (q :: q :: a :: s) [q; q; q] = false.
Proof.
  intros Ha.
  assert (Hq := chr_not_elim _ _ q Ha (or_introl eq_refl)).
  unfold chr_is in Hq.
  cbn [startswith]. rewrite Ascii.eqb_refl, Hq.
  repeat split; reflexivity.
Qed.

(** The body of a triple-quoted region is taken whole, up to its closing
    quotes, by a repetition [m] whose steps in the body are forced and that
    stops at the closing quotes. *)
Lemma star_triple_body (m : nat -> text -> caps -> cont -> option result)
    (q : ascii) (b rest : text) (k : cont) :
  triple_body q b ->
  (forall a s pos c K, chr_not [q; backslash] a = true ->
     m pos (a :: s) c K = K (S pos) s c) ->
  (forall a s pos c K, chr_not [q; backslash] a = true ->
     m pos (q :: a :: s) c K = K (S pos) (a :: s) c) ->
  (forall a s pos c K, chr_not [q; backslash] a = true ->
     m pos (q :: q :: a :: s) c K = K (S (S pos)) (a :: s) c) ->
  (forall fuel pos c,
     star_loop m k fuel pos ([q; q; q] ++ rest) c
     = k pos ([q; q; q] ++ rest) c) ->
  (forall pos s c, startswith s [q; q; q] = false -> k pos s c = None) ->
  forall fuel pos c, length b <= fuel ->
  star_loop m k fuel pos (b ++ [q; q; q] ++ rest) c
  = k (pos + length b) ([q; q; q] ++ rest) c.
Proof.
  intros Hb Hplain Hquote Hquotes Hclose Hk.
  set (close := [q; q; q] ++ rest) in *.
  induction Hb as [|a b Ha _ IH|a b Ha _ IH|a b Ha _ IH];
    intros fuel pos c Hf.
  - cbn [app length]. rewrite Nat.add_0_r. apply Hclose.
  - destruct (startswith_plain3 q a (b ++ close) Ha) as (H1 & _ & _).
    destruct fuel as [|fuel]; [cbn in Hf; lia|].
    change ((a :: b) ++ close) with ([a] ++ (b ++ close)).
    rewrite (star_loop_step _ _ _ _ [a] (b ++ close)).
    + rewrite IH by (cbn in Hf; lia). f_equal. cbn [length]. lia.
    + intros K. cbn [app length]. rewrite !Nat.add_1_r. now apply Hplain.
    + cbn. lia.
    + now apply Hk.
  - destruct (startswith_plain3 q a (b ++ close) Ha) as (H1 & H2 & _).
    destruct fuel as [|[|fuel]]; [cbn in Hf; lia|cbn in Hf; lia|].
    change ((q :: a :: b) ++ close) with ([q] ++ ([a] ++ (b ++ close))).
    rewrite (star_loop_step _ _ _ _ [q] ([a] ++ (b ++ close))).
    + rewrite (star_loop_step _ _ _ _ [a] (b ++ close)).
      * rewrite IH by (cbn in Hf; lia). f_equal. cbn [length]. lia.
      * intros K. cbn [app length]. rewrite !Nat.add_1_r. now apply Hplain.
      * cbn. lia.
      * now apply Hk.
    + intros K. cbn [app length]. rewrite !Nat.add_1_r. now apply Hquote.
    + cbn. lia.
    + now apply Hk.
  - destruct (startswith_plain3 q a (b ++ close) Ha) as (H1 & _ & H3).
    destruct fuel as [|[|fuel]]; [cbn in Hf; lia|cbn in Hf; lia|].
    change ((q :: q :: a :: b) ++ close)
      with ([q; q] ++ ([a] ++ (b ++ close))).
    rewrite (star_loop_step _ _ _ _ [q; q] ([a] ++ (b ++ close))).
    + rewrite (star_loop_step _ _ _ _ [a] (b ++ close)).
      * rewrite IH by (cbn in Hf; lia). f_equal. cbn [length]. lia.
      * intros K. cbn [app length]. rewrite !Nat.add_1_r. now apply Hplain.
      * cbn. lia.
      * now apply Hk.
    + intros K. cbn [app length].
      replace (pos + 2) with (S (S pos)) by lia. now apply Hquotes.
    + cbn. lia.
    + now apply Hk.
Qed.

Lemma piece_triple_single b rest pos c K :
  triple_body squote b ->
  rmatch before_piece pos (T "'''" ++ b ++ T "'''" ++ rest) c K
  = K (pos + 3 + length b + 3) rest c.
Proof.
  intros Hb. rewrite before_piece_alts.
  replace (rmatch (Chr (chr_not [squote; dquote; "#"%char])) pos
             (T "'''" ++ b ++ T "'''" ++ rest) c K) with (@None result)
    by reflexivity.
  assert (E : rmatch triple_single pos (T "'''" ++ b ++ T "'''" ++ rest) c K
              = K (pos + 3 + length b + 3) rest c).
  { rewrite triple_single_unfold, seq_unfold, lit_ok.
    rewrite seq_unfold, star_unfold.
    change (T "'''") with [squote; squote; squote].
    rewrite (star_triple_body _ squote b rest); try assumption.
    - now rewrite lit_ok.
    - intros. now apply triple_element_plain.
    - intros. now apply triple_element_quote.
    - intros. now apply triple_element_quotes.
    - intros fuel pos' c'. apply star_loop_stop. intros K'.
      apply triple_element_stop.
    - intros pos' s c' Hs. now apply lit_fail.
    - rewrite length_app. lia. }
  rewrite E. destruct (K _ rest c); [reflexivity|].
  change (T "'''" ++ b ++ T "'''" ++ rest)
    with (squote :: [squote; squote] ++ (b ++ T "'''" ++ rest)).
  rewrite triple_double_fail, comment_fail, double_quoted_fail by reflexivity.
  unfold single_quoted. cbn [Seqs].
  rewrite seq_unfold, chr_ok by reflexivity.
  rewrite seq_unfold, not_ahead_unfold.
  change ([squote; squote] ++ b ++ T "'''" ++ rest)
    with (squote :: squote :: (b ++ T "'''" ++ rest)).
  rewrite !startswith_same. now destruct (b ++ T "'''" ++ rest).
Qed.

Lemma triple_double_unfold :
  triple_double
  = Seq (Lit ddd) (Seq (Star triple_element_double) (Lit ddd)).
Proof. reflexivity. Qed.

Lemma triple_element_double_plain a s pos c K :
  chr_not [dquote; backslash] a = true ->
  rmatch triple_element_double pos (a :: s) c K = K (S pos) s c.
Proof.
  intros Ha.
  assert (Hq := chr_not_elim _ _ dquote Ha (or_introl eq_refl)).
  assert (Hb := chr_not_elim _ _ backslash Ha (or_intror (or_introl eq_refl))).
  unfold triple_element_double. cbn [Alts Seqs Lit rmatch].
  rewrite Ha, Hq, Hb. now destruct (K (S pos) s c).
Qed.

Lemma triple_element_double_quote a s pos c K :
  chr_not [dquote; backslash] a = true ->
  rmatch triple_element_double pos (dquote :: a :: s) c K
  = K (S pos) (a :: s) c.
Proof.
  intros Ha.
  assert (Hq := chr_not_elim _ _ dquote Ha (or_introl eq_refl)).
  unfold triple_element_double. cbn [Alts Seqs Lit rmatch startswith].
  change (chr_not [dquote; backslash] dquote) with false.
  change (chr_is dquote dquote) with true.
  change (chr_is backslash dquote) with false.
  unfold chr_is in Hq. cbn iota. rewrite Hq. cbn [andb].
  unfold chr_is. rewrite Hq.
  now destruct (K (S pos) (a :: s) c).
Qed.

Lemma triple_element_double_quotes a s pos c K :
  chr_not [dquote; backslash] a = true ->
  rmatch triple_element_double pos (dquote :: dquote :: a :: s) c K
  = K (S (S pos)) (a :: s) c.
Proof.
  intros Ha.
  unfold triple_element_double. cbn [Alts Seqs Lit rmatch startswith].
  change (chr_not [dquote; backslash] dquote) with false.
  change (chr_is dquote dquote) with true.
  change (chr_is backslash dquote) with false.
  change (Ascii.eqb dquote dquote) with true.
  cbn iota. cbn [andb Nat.eqb].
  now destruct (K (S (S pos)) (a :: s) c).
Qed.

(** A step in such a body goes on one, two or three characters further, or
    fails. *)
Lemma triple_element_double_none s pos c (C : cont) :
  (forall n pos', 0 < n -> C pos' (drop n s) c = None) ->
  rmatch triple_element_double pos s c C = None.
Proof.
  intros H.
  destruct s as [|a [|b [|d s]]];
    unfold triple_element_double, Any; cbn [Alts Seqs Lit rmatch];
    try (pose proof (H 1 (S pos) ltac:(lia)) as H1; cbn [drop] in H1;
         rewrite H1);
    try (pose proof (H 2 (S (S pos)) ltac:(lia)) as H2; cbn [drop] in H2;
         rewrite H2);
    try (pose proof (H 3 (S (S (S pos))) ltac:(lia)) as H3; cbn [drop] in H3;
         rewrite drop_0 in H3; rewrite H3);
    repeat match goal with
           | |- context [if ?x then _ else _] => destruct x
           end; reflexivity.
Qed.

Lemma str_contains_false (s sub : text) :
  str_contains s sub = false -> startswith s sub = false.
Proof. destruct s; cbn; intros H; now apply orb_false_iff in H as [H _]. Qed.

Lemma str_contains_drop (n : nat) (s sub : text) :
  str_contains s sub = false -> str_contains (drop n s) sub = false.
Proof.
  revert s. induction n as [|n IH]; intros s H; [now rewrite drop_0|].
  destruct s as [|a s]; [exact H|].
  cbn [drop]. apply IH. cbn [str_contains] in H.
  now apply orb_false_iff in H as [_ H].
Qed.

(** In a text without three double quotes in a row, the body of a region
    finds no end. *)
Lemma triple_double_wanders (k : cont) :
  (forall pos s c, startswith s ddd = false -> k pos s c = None) ->
  forall fuel s pos c, str_contains s ddd = false ->
  star_loop (rmatch triple_element_double) k fuel pos s c = None.
Proof.
  intros Hk. induction fuel as [|fuel IH]; intros s pos c Hs.
  - now apply Hk, str_contains_false.
  - cbn [star_loop]. rewrite triple_element_double_none.
    + now apply Hk, str_contains_false.
    + intros n pos' _. destruct (Nat.ltb pos pos'); [|reflexivity].
      now apply IH, str_contains_drop.
Qed.

Lemma triple_element_double_close rest pos c (C : cont) :
  rmatch triple_element_double pos (ddd ++ rest) c C
  = C (S (S pos)) (dquote :: rest) c.
Proof.
  unfold triple_element_double, ddd.
  cbn [app Alts Seqs Lit rmatch startswith].
  change (chr_not [dquote; backslash] dquote) with false.
  change (chr_is dquote dquote) with true.
  change (chr_is backslash dquote) with false.
  change (Ascii.eqb dquote dquote) with true.
  cbn iota. cbn [andb Nat.eqb].
  now destruct (C (S (S pos)) (dquote :: rest) c).
Qed.

Lemma piece_triple_double b rest pos c K :
  triple_body dquote b ->
  str_contains (dquote :: rest) ddd = false ->
  rmatch before_piece pos (ddd ++ b ++ ddd ++ rest) c K
  = K (pos + 3 + length b + 3) rest c.
Proof.
  intros Hb Hrest. rewrite before_piece_alts.
  replace (rmatch (Chr (chr_not [squote; dquote; "#"%char])) pos
             (ddd ++ b ++ ddd ++ rest) c K) with (@None result)
    by reflexivity.
  rewrite triple_single_fail by reflexivity.
  assert (E : rmatch triple_double pos (ddd ++ b ++ ddd ++ rest) c K
              = K (pos + 3 + length b + 3) rest c).
  { rewrite triple_double_unfold, seq_unfold, lit_ok.
    rewrite seq_unfold, star_unfold.
    change (b ++ ddd ++ rest) with (b ++ [dquote; dquote; dquote] ++ rest).
    rewrite (star_triple_body _ dquote b rest); try assumption.
    - fold ddd. now rewrite lit_ok.
    - intros. now apply triple_element_double_plain.
    - intros. now apply triple_element_double_quote.
    - intros. now apply triple_element_double_quotes.
    - intros fuel pos' c'. destruct fuel as [|fuel]; [reflexivity|].
      cbn [star_loop]. fold ddd. rewrite triple_element_double_close.
      rewrite (proj2 (Nat.ltb_lt pos' (S (S pos')))) by lia.
      rewrite triple_double_wanders; [reflexivity| |assumption].
      intros; now apply lit_fail.
    - intros pos' s c' Hs. now apply lit_fail.
    - rewrite length_app. cbn [length]. lia. }
  rewrite E. destruct (K _ rest c); [reflexivity|].
  change (ddd ++ b ++ ddd ++ rest)
    with (dquote :: [dquote; dquote] ++ (b ++ ddd ++ rest)).
  rewrite comment_fail by reflexivity.
  unfold double_quoted. cbn [Seqs].
  rewrite seq_unfold, chr_ok by reflexivity.
  rewrite seq_unfold, not_ahead_unfold.
  change ([dquote; dquote] ++ b ++ ddd ++ rest)
    with (dquote :: dquote :: (b ++ ddd ++ rest)).
  rewrite !startswith_same.
  replace (startswith (b ++ ddd ++ rest) []) with true
    by now destruct (b ++ ddd ++ rest).
  now apply single_quoted_fail.
Qed.

Lemma fragment_head q frag l :
  chr_is backslash q = false ->
  fragment q frag -> startswith frag (q :: l) = false.
Proof.
  intros Hq [|a b Ha _|a b _]; [reflexivity| |].
  - apply startswith_head, (chr_not_elim _ _ _ Ha). right. now left.
  - apply startswith_head. now apply q_not_backslash'.
Qed.

(** No piece starts at the quote that opens the current string. *)
Lemma piece_open_single frag pos c K :
  fragment squote frag ->
  rmatch before_piece pos (squote :: frag) c K = None.
Proof.
  intros Hf. rewrite before_piece_alts.
  rewrite chr_fail by reflexivity.
  rewrite triple_single_fail
    by (change (T "'''") with [squote; squote; squote];
        rewrite startswith_same; now apply fragment_head).
  rewrite triple_double_fail, comment_fail, double_quoted_fail by reflexivity.
  change single_quoted with (quoted squote).
  now apply quoted_open_fails.
Qed.

Lemma piece_open_double frag pos c K :
  fragment dquote frag ->
  rmatch before_piece pos (dquote :: frag) c K = None.
Proof.
  intros Hf. rewrite before_piece_alts.
  rewrite chr_fail by reflexivity.
  rewrite triple_single_fail by reflexivity.
  rewrite triple_double_fail
    by (unfold ddd; rewrite startswith_same; now apply fragment_head).
  rewrite comment_fail by reflexivity.
  change double_quoted with (quoted dquote).
  rewrite quoted_open_fails by (assumption || reflexivity).
  now apply single_quoted_fail.
Qed.

Lemma star_loop_piece (m : nat -> text -> caps -> cont -> option result)
    (k : cont) (fuel pos n : nat) (s rest : text) (c : caps) (r : result) :
  (forall K, m pos s c K = K (pos + n) rest c) ->
  0 < n ->
  star_loop m k fuel (pos + n) rest c = Some r ->
  star_loop m k (S fuel) pos s c = Some r.
Proof.
  intros Hm Hn Hr. cbn [star_loop]. rewrite Hm.
  rewrite (proj2 (Nat.ltb_lt pos (pos + n))) by lia.
  now rewrite Hr.
Qed.

(** The pieces before the current string are taken one by one, and what
    follows them is matched where the current string opens. *)
Lemma star_before (tail pre : text) (k : cont) :
  before tail pre ->
  tail <> [] ->
  (forall pos c K, rmatch before_piece pos tail c K = None) ->
  forall fuel pos c r, length pre <= fuel ->
  k (pos + length pre) tail c = Some r ->
  star_loop (rmatch before_piece) k fuel pos (pre ++ tail) c = Some r.
Proof.
  intros Hpre Htail Hstop.
  assert (Hne : forall pre', pre' ++ tail <> []).
  { intros pre' E. apply app_eq_nil in E as [_ E]. contradiction. }
  induction Hpre as [|a pre Ha _ IH|b pre Hb _ IH|b pre Hb Hs _ IH
                     |b pre Hb Hs _ IH|b pre Hb _ IH|b pre Hb Hs _ IH];
    intros fuel pos c r Hf Hr.
  - cbn [app length] in *. rewrite Nat.add_0_r in Hr.
    rewrite star_loop_stop by (intros K; apply Hstop). exact Hr.
  - destruct fuel as [|fuel]; [cbn in Hf; lia|].
    apply (star_loop_piece _ _ _ _ 1 _ (pre ++ tail)); [|lia|].
    + intros K. cbn [app]. rewrite Nat.add_1_r. now apply piece_plain.
    + apply IH; [cbn in Hf; lia|].
      rewrite <- Hr. f_equal. cbn [length]. lia.
  - rewrite length_cons, length_app, length_cons in Hf, Hr.
    destruct fuel as [|fuel]; [lia|].
    apply (star_loop_piece _ _ _ _ (S (S (length b))) _ (pre ++ tail)); [|lia|].
    + intros K. cbn [app]. rewrite <- app_assoc. cbn [app].
      rewrite piece_comment by (assumption || apply Hne). f_equal. lia.
    + apply IH; [lia|]. rewrite <- Hr. f_equal. lia.
  - rewrite length_cons, length_app, length_cons in Hf, Hr.
    destruct fuel as [|fuel]; [lia|].
    apply (star_loop_piece _ _ _ _ (S (S (length b))) _ (pre ++ tail)); [|lia|].
    + intros K. cbn [app]. rewrite <- app_assoc. cbn [app].
      rewrite piece_single_quoted by assumption. f_equal. lia.
    + apply IH; [lia|]. rewrite <- Hr. f_equal. lia.
  - rewrite length_cons, length_app, length_cons in Hf, Hr.
    destruct fuel as [|fuel]; [lia|].
    apply (star_loop_piece _ _ _ _ (S (S (length b))) _ (pre ++ tail)); [|lia|].
    + intros K. cbn [app]. rewrite <- app_assoc. cbn [app].
      rewrite piece_double_quoted by assumption. f_equal. lia.
    + apply IH; [lia|]. rewrite <- Hr. f_equal. lia.
  - rewrite !length_app in Hf, Hr.
    change (length (T "'''")) with 3 in Hf, Hr.
    destruct fuel as [|fuel]; [lia|].
    apply (star_loop_piece _ _ _ _ (3 + length b + 3) _ (pre ++ tail));
      [|lia|].
    + intros K. rewrite <- !app_assoc.
      rewrite piece_triple_single by assumption. f_equal. lia.
    + apply IH; [lia|]. rewrite <- Hr. f_equal. lia.
  - rewrite !length_app in Hf, Hr.
    change (length ddd) with 3 in Hf, Hr.
    destruct fuel as [|fuel]; [lia|].
    apply (star_loop_piece _ _ _ _ (3 + length b + 3) _ (pre ++ tail));
      [|lia|].
    + intros K. rewrite <- !app_assoc.
      rewrite piece_triple_double by assumption. f_equal. lia.
    + apply IH; [lia|]. rewrite <- Hr. f_equal. lia.
Qed.

(** The current string: its quote, the fragment up to the end of the text,
    the fragment in the group of its style. *)
Lemma alt_unfold r1 r2 pos s c K :
  rmatch (Alt r1 r2) pos s c K
  = match rmatch r1 pos s c K with
    | Some x => Some x
    | None => rmatch r2 pos s c K
    end.
Proof. reflexivity. Qed.

Lemma group_unfold n r pos s c K :
  rmatch (Group n r) pos s c K
  = rmatch r pos s c
      (fun pos1 s1 c1 => K pos1 s1 (<[n := take (pos1 - pos) s]> c1)).
Proof. reflexivity. Qed.

Lemma open_single frag pos c :
  fragment squote frag ->
  rmatch (Seq (Alt in_single in_double) Eol) pos (squote :: frag) c accept
  = Some (S pos + length frag, <[1 := frag]> c).
Proof.
  intros Hf. rewrite seq_unfold, alt_unfold. unfold in_single at 1.
  rewrite seq_unfold, chr_ok by reflexivity.
  rewrite group_unfold, star_unfold.
  change (Alt (Chr (chr_not [newline; squote; backslash]))
            (Seq (Chr (chr_is backslash)) Any))
    with (element (chr_not [newline; squote; backslash])).
  rewrite (star_fragment squote frag _
             (S pos + length frag, <[1 := frag]> c) Hf); [reflexivity|lia|].
  cbn. replace (pos + length frag - pos) with (length frag) by lia.
  now rewrite firstn_all.
Qed.

Lemma open_double frag pos c :
  fragment dquote frag ->
  rmatch (Seq (Alt in_single in_double) Eol) pos (dquote :: frag) c accept
  = Some (S pos + length frag, <[2 := frag]> c).
Proof.
  intros Hf. rewrite seq_unfold, alt_unfold. unfold in_single at 1.
  rewrite seq_unfold, chr_fail by reflexivity.
  unfold in_double.
  rewrite seq_unfold, chr_ok by reflexivity.
  rewrite group_unfold, star_unfold.
  change (Alt (Chr (chr_not [newline; dquote; backslash]))
            (Seq (Chr (chr_is backslash)) Any))
    with (element (chr_not [newline; dquote; backslash])).
  rewrite (star_fragment dquote frag _
             (S pos + length frag, <[2 := frag]> c) Hf); [reflexivity|lia|].
  cbn. replace (pos + length frag - pos) with (length frag) by lia.
  now rewrite firstn_all.
Qed.

End Pieces.

(** C3, as stated, fails: after [x = '] the text [abc] and a backslash has
    no unescaped quote, the cursor is inside the string, and the grammar
    does not match the text: a backslash has to be followed by a
    character. *)
Lemma open_string_counterexample :
  before (squote :: T "abc\") (T "x = ")
  /\ no_unescaped_quote squote (T "abc\") = true
  /\ Grammar.grammar_match (T "x = " ++ squote :: T "abc\") = None.
Proof.
  split; [|split; vm_compute; reflexivity].
  repeat (apply before_plain; [reflexivity|]). apply before_nil.
Qed.

(** C3, amended.  When the text before the cursor is made of characters
    outside strings and comments, comments that end with their line,
    complete strings in single or double quotes, ['''] regions without
    backslash and regions in three double quotes without backslash after
    which the text has no three double quotes in a row, and is followed by
    an opening quote and a fragment with no unescaped quote of that style,
    no newline of its own and no backslash left alone at its end, the
    grammar matches the text and reports the style of the quote, with the
    fragment in the group of that style ([var1] for the single quote,
    [var2] for the double quote). *)
Theorem grammar_classifies_open_string (q : Grammar.quote_style)
    (pre frag : text) :
  before (quote_char q :: frag) pre ->
  fragment (quote_char q) frag ->
  Grammar.grammar_match (pre ++ quote_char q :: frag) = Some (q, frag).
Proof.
  intros Hpre Hfrag. unfold Grammar.grammar_match, Re.match_at.
  rewrite drop_0. unfold Grammar.grammar. cbn [Re.Seqs].
  rewrite seq_unfold, star_unfold.
  destruct q; cbn [quote_char] in *.
  - rewrite (star_before _ _ _ Hpre) with
      (r := (S (0 + length pre) + length frag, <[1 := frag]> ∅)).
    + cbn beta iota. unfold Re.group. now rewrite lookup_insert_eq.
    + discriminate.
    + intros pos c K. now apply piece_open_single.
    + rewrite length_app. lia.
    + now apply open_single.
  - rewrite (star_before _ _ _ Hpre) with
      (r := (S (0 + length pre) + length frag, <[2 := frag]> ∅)).
    + cbn beta iota. unfold Re.group.
      rewrite lookup_insert_ne by discriminate.
      now rewrite lookup_empty, lookup_insert_eq.
    + discriminate.
    + intros pos c K. now apply piece_open_double.
    + rewrite length_app. lia.
    + now apply open_double.
Qed.

Lemma grammar_classifies_open_string_witness :
  Grammar.grammar_match (before_example ++ squote :: fragment_example)
  = Some (Grammar.SingleQuoted, fragment_example).
Proof.
  apply (grammar_classifies_open_string Grammar.SingleQuoted before_example
           fragment_example).
  - refine (before_triple_double _ (T "doc") _ _ _ _).
    { do 3 (apply triple_body_plain; [reflexivity|]).
      apply triple_body_nil. }
    { vm_compute. reflexivity. }
    apply before_plain; [reflexivity|].
    refine (before_comment _ (T " it's") _ eq_refl _).
    do 4 (apply before_plain; [reflexivity|]).
    refine (before_single_quoted _ (T "a\'b") _ _ eq_refl _).
    { apply string_body_plain; [reflexivity|].
      apply string_body_escape.
      apply string_body_plain; [reflexivity|]. apply string_body_nil. }
    do 3 (apply before_plain; [reflexivity|]).
    refine (before_double_quoted _ (T "c") _ _ eq_refl _).
    { apply string_body_plain; [reflexivity|]. apply string_body_nil. }
    do 3 (apply before_plain; [reflexivity|]).
    refine (before_triple_single _ (T "d'e") _ _ _).
    { apply triple_body_plain; [reflexivity|].
      apply triple_body_quote; [reflexivity|]. apply triple_body_nil. }
    do 5 (apply before_plain; [reflexivity|]).
    apply before_nil.
  - apply fragment_plain; [reflexivity|].
    apply fragment_escape.
    apply fragment_plain; [reflexivity|]. apply fragment_nil.
Defined.

(** The same text with the string open in double quotes. *)
Example grammar_match_double_example :
  Grammar.grammar_match (before_example ++ dquote :: fragment_example)
  = Some (Grammar.DoubleQuoted, fragment_example).
Proof. vm_compute. reflexivity. Qed.

(** What the theorem leaves out.  A ['''] region with a backslash in its
    body is not matched: the alternative for an escaped character asks for
    a closing bracket after it. *)
Example backslash_in_triple_single :
  Grammar.grammar_match (T "'''a\b''' 'x") = None.
Proof. vm_compute. reflexivity. Qed.

(** After a region in three double quotes, a string in single quotes that
    is open at the cursor and has three double quotes and one more in it is
    reported as a string in double quotes. *)
Example triple_double_then_quotes :
  Grammar.grammar_match
    (ddd ++ T "a" ++ ddd ++ T " 'b" ++ ddd ++ T "c" ++ [dquote] ++ T "d")
  = Some (Grammar.DoubleQuoted, T "d").
Proof. vm_compute. reflexivity. Qed.

(** * Further properties of the code *)

(** ** The order of attribute names *)

Section SortAttributeNames.
Import DictionaryCompleter.

Lemma text_leb_total (a b : text) : text_leb a b = false -> text_leb b a = true.
Proof.
  revert b. induction a as [|x a IH]; intros [|y b]; cbn [text_leb];
    try congruence.
  destruct (Nat.ltb_spec (nat_of_ascii x) (nat_of_ascii y)),
    (Nat.ltb_spec (nat_of_ascii y) (nat_of_ascii x));
    try congruence; try lia. apply IH.
Qed.

Lemma text_leb_trans (a b c : text) :
  text_leb a b = true -> text_leb b c = true -> text_leb a c = true.
Proof.
  revert b c. induction a as [|x a IH]; intros [|y b] [|z c]; cbn [text_leb];
    try congruence.
  destruct (Nat.ltb_spec (nat_of_ascii x) (nat_of_ascii y)),
    (Nat.ltb_spec (nat_of_ascii y) (nat_of_ascii x)),
    (Nat.ltb_spec (nat_of_ascii y) (nat_of_ascii z)),
    (Nat.ltb_spec (nat_of_ascii z) (nat_of_ascii y)),
    (Nat.ltb_spec (nat_of_ascii x) (nat_of_ascii z)),
    (Nat.ltb_spec (nat_of_ascii z) (nat_of_ascii x));
    try congruence; try lia. apply IH.
Qed.

(** The comparison of strings decides the lexicographic order. *)
Lemma text_leb_lex (a b : text) : text_leb a b = true <-> lex_le a b.
Proof.
  split.
  - revert b. induction a as [|x a IH]; intros [|y b]; cbn [text_leb];
      try discriminate; try (intros _; apply lex_le_nil).
    destruct (Nat.ltb_spec (nat_of_ascii x) (nat_of_ascii y)) as [Hlt|Hxy];
      [intros _; now apply lex_le_lt|].
    destruct (Nat.ltb_spec (nat_of_ascii y) (nat_of_ascii x)) as [Hlt|Hyx];
      [discriminate|].
    intros Hab.
    assert (E : x = y).
    { rewrite <- (ascii_nat_embedding x), <- (ascii_nat_embedding y).
      f_equal. lia. }
    subst y. apply lex_le_cons. now apply IH.
  - induction 1 as [b|x y a b Hlt|x a b _ IH]; cbn [text_leb].
    + reflexivity.
    + apply Nat.ltb_lt in Hlt. now rewrite Hlt.
    + now rewrite Nat.ltb_irrefl.
Qed.

(** The key of the sort is the class of the name, read off its first
    characters, and the name. *)
Lemma sort_key_rank (name : text) : sort_key name = (name_rank name, name).
Proof.
  destruct name as [|a [|b l]]; [reflexivity| |].
  - destruct a as [[] [] [] [] [] [] [] []]; reflexivity.
  - destruct a as [[] [] [] [] [] [] [] []]; try reflexivity.
    destruct b as [[] [] [] [] [] [] [] []]; try reflexivity.
    destruct l; reflexivity.
Qed.

Lemma key_leb_sorts_before (a b : text) :
  key_leb (sort_key a) (sort_key b) = true <-> sorts_before a b.
Proof.
  unfold key_leb, sorts_before. rewrite !sort_key_rank. cbn [fst snd].
  rewrite <- text_leb_lex.
  destruct (Nat.ltb_spec (name_rank a) (name_rank b));
    [split; [intros _; now left|reflexivity]|].
  destruct (Nat.ltb_spec (name_rank b) (name_rank a)).
  - split; [discriminate|]. intros [?|[? _]]; lia.
  - split; [intros ?; right; split; [lia|assumption]|].
    intros [?|[_ ?]]; [lia|assumption].
Qed.

Lemma sorts_before_total (a b : text) :
  key_leb (sort_key a) (sort_key b) = false -> sorts_before b a.
Proof.
  unfold key_leb, sorts_before. rewrite !sort_key_rank. cbn [fst snd].
  rewrite <- text_leb_lex.
  destruct (Nat.ltb_spec (name_rank a) (name_rank b)); [discriminate|].
  destruct (Nat.ltb_spec (name_rank b) (name_rank a)); [now left|].
  intros Hl. right. split; [lia|now apply text_leb_total].
Qed.

Lemma sorts_before_trans (a b c : text) :
  sorts_before a b -> sorts_before b c -> sorts_before a c.
Proof.
  unfold sorts_before. rewrite <- !text_leb_lex.
  intros [?|[? Hab]] [?|[? Hbc]]; try (left; lia).
  right. split; [lia|]. now apply text_leb_trans with b.
Qed.

Lemma insert_sorted_perm (x : text) (l : list text) :
  Permutation (insert_sorted x l) (x :: l).
Proof.
  induction l as [|y l IH]; cbn; [reflexivity|].
  destruct (key_leb _ _); [reflexivity|].
  rewrite IH. apply perm_swap.
Qed.

Lemma insert_sorted_sorted (x : text) (l : list text) :
  StronglySorted sorts_before l ->
  StronglySorted sorts_before (insert_sorted x l).
Proof.
  induction 1 as [|y l Hl IH Hy]; cbn; [repeat constructor|].
  destruct (key_leb (sort_key x) (sort_key y)) eqn:E.
  - apply key_leb_sorts_before in E.
    constructor; [now constructor|].
    constructor; [assumption|].
    eapply Forall_impl; [exact Hy|].
    intros z Hz. now apply sorts_before_trans with y.
  - apply sorts_before_total in E.
    constructor; [assumption|].
    rewrite insert_sorted_perm. now constructor.
Qed.

Lemma sort_attribute_names_perm_aux (names : list text) :
  Permutation (_sort_attribute_names names) names.
Proof.
  induction names as [|x names IH]; [reflexivity|].
  cbn [_sort_attribute_names foldr].
  rewrite insert_sorted_perm. now constructor.
Qed.

Lemma sort_attribute_names_sorted_aux (names : list text) :
  StronglySorted sorts_before (_sort_attribute_names names).
Proof.
  induction names as [|x names IH]; [constructor|].
  cbn [_sort_attribute_names foldr]. now apply insert_sorted_sorted.
Qed.

End SortAttributeNames.

(** X1.  [_sort_attribute_names] gives back the names it was given, each
    as often as it occurs: none is lost, none is added. *)
Theorem sort_attribute_names_permutation (names : list text) :
  Permutation (DictionaryCompleter._sort_attribute_names names) names.
Proof.
  induction names as [|x names IH]; [reflexivity|].
  cbn [DictionaryCompleter._sort_attribute_names foldr].
  rewrite insert_sorted_perm. now constructor.
Qed.

(** X2.  In the result of [_sort_attribute_names] the public names come
    first, then the names with one leading underscore, then the names with
    two; the names of one class are in lexicographic order.  The classes
    are read off the first characters of a name and the order is the
    lexicographic one by code point, neither by way of the key of the
    sort. *)
Theorem sort_attribute_names_sorted (names : list text) :
  StronglySorted sorts_before (DictionaryCompleter._sort_attribute_names names).
Proof.
  induction names as [|x names IH]; [constructor|].
  cbn [DictionaryCompleter._sort_attribute_names foldr].
  now apply insert_sorted_sorted.
Qed.

(** The example of the specification. *)
Example sort_attribute_names_example :
  DictionaryCompleter._sort_attribute_names [T "__baz__"; T "_bar"; T "foo"]
  = [T "foo"; T "_bar"; T "__baz__"].
Proof. reflexivity. Qed.

(** ** What the generators yield *)

Lemma gen_seq_elem (g1 g2 : gen) (c : Completion) :
  c ∈ (gen_seq g1 g2).1 -> c ∈ g1.1 \/ c ∈ g2.1.
Proof.
  destruct g1 as [l1 [e|]]; cbn; [now left|].
  intros H. now apply elem_of_app in H.
Qed.

Lemma gen_for_elem {A : Type} (l : list A) (body : A -> gen) (c : Completion) :
  c ∈ (gen_for l body).1 -> exists x, x ∈ l /\ c ∈ (body x).1.
Proof.
  induction l as [|x l IH]; cbn [gen_for]; [intros H; inversion H|].
  intros H. apply gen_seq_elem in H as [H|H].
  - exists x. split; [apply list_elem_of_here|assumption].
  - destruct (IH H) as (y & Hy & Hc). exists y.
    split; [now apply list_elem_of_further|assumption].
Qed.

Lemma yield_item_elem (key : text) (k v : Py.value) (c : Completion) :
  c ∈ (DictionaryCompleter.yield_item key k v).1 ->
  exists k_repr v_repr, c = item_completion key k_repr v_repr.
Proof.
  rewrite yield_item_spec. unfold item_candidate.
  destruct (Py.repr k) as [kr|], (Py.repr v) as [vr|]; cbn;
    intros H; try now inversion H.
  apply list_elem_of_singleton in H. eauto.
Qed.

(** Every candidate of the item lookup is the candidate of a key or index
    for the fragment the pattern found. *)
Lemma item_lookup_elem (h : Py.host) (globals tl : Py.env) (t : text)
    (c : Completion) :
  c ∈ (DictionaryCompleter._get_item_lookup_completions h globals t tl).1 ->
  exists object_var key k_repr v_repr,
    lookup_match Patterns.item_lookup_pattern t = Some (object_var, key)
    /\ c = item_completion key k_repr v_repr.
Proof.
  unfold DictionaryCompleter._get_item_lookup_completions, lookup_match.
  destruct (Re.search _ t) as [[[st e] cs]|]; [|intros H; inversion H].
  destruct (Patterns.groups2 cs) as [[obj key]|]; [|intros H; inversion H].
  intros H.
  assert (G : exists k_repr v_repr, c = item_completion key k_repr v_repr).
  { destruct (DictionaryCompleter._lookup h globals obj tl);
      try (now inversion H).
    - unfold DictionaryCompleter.index_completions in H.
      destruct (_ || _); [|now inversion H].
      apply gen_for_elem in H as (k & _ & H).
      destruct (startswith _ key); [|now inversion H].
      destruct (l !! k); [|now inversion H].
      now apply yield_item_elem in H.
    - unfold DictionaryCompleter.index_completions in H.
      destruct (_ || _); [|now inversion H].
      apply gen_for_elem in H as (k & _ & H).
      destruct (startswith _ key); [|now inversion H].
      destruct (l !! k); [|now inversion H].
      now apply yield_item_elem in H.
    - unfold DictionaryCompleter.dict_completions in H.
      destruct (DictionaryCompleter.eval_key _ _ _); [|now inversion H].
      apply gen_for_elem in H as (kv & _ & H).
      destruct (Py.str kv.1); [|now inversion H].
      destruct (Py.startswith_obj _ _) as [[|]|]; try now inversion H.
      now apply yield_item_elem in H. }
  destruct G as (kr & vr & ->). now exists obj, key, kr, vr.
Qed.

(** The trigger step yields nothing, ["["] or ["."], or ends with the
    exception that asking the result for its truth value raised. *)
Lemma expression_completions_cases (h : Py.host) (globals tl : Py.env)
    (t : text) :
  let g := DictionaryCompleter._get_expression_completions h globals t tl in
  g = gen_nil
  \/ g = gen_yield (mkCompletion (T "[") 0 None None [])
  \/ g = gen_yield (mkCompletion (T ".") 0 None None [])
  \/ exists object_var e,
       Re.search Patterns.expression_pattern t ≫= (fun m => Re.group m.2 1)
       = Some object_var
       /\ Py.truthy (DictionaryCompleter._lookup h globals object_var tl)
          = Py.Raise e
       /\ g = gen_raise e.
Proof.
  cbn zeta. unfold DictionaryCompleter._get_expression_completions.
  destruct (Re.search _ t) as [[[st e] cs]|]; [|now left].
  cbn [mbind option_bind snd].
  destruct (Re.group cs 1) as [obj|]; [|now left].
  destruct (_ || _); [right; now left|].
  destruct (Py.truthy _) as [[|]|e'] eqn:E;
    [right; right; now left|now left|].
  right. right. right. now exists obj, e'.
Qed.

Lemma attribute_lookup_elem (h : Py.host) (globals tl : Py.env) (t : text)
    (c : Completion) :
  c ∈ (DictionaryCompleter._get_attribute_completions h globals t tl).1 ->
  exists object_var attr_name,
    lookup_match Patterns.attribute_lookup_pattern t
    = Some (object_var, attr_name)
    /\ c = attribute_completion attr_name (c_text c)
    /\ startswith (c_text c) attr_name = true.
Proof.
  intros H.
  destruct (lookup_match Patterns.attribute_lookup_pattern t)
    as [[obj attr_name]|] eqn:E.
  - destruct (Py.dir h (DictionaryCompleter._lookup h globals obj tl))
      as [names|e] eqn:D.
    + rewrite (attribute_completions_spec _ _ _ _ _ _ _ E D) in H.
      cbn [fst] in H.
      apply list_elem_of_In, in_map_iff in H as (name & <- & Hn).
      apply List.filter_In in Hn as [_ Hn].
      exists obj, attr_name. repeat split; assumption.
    + rewrite (attribute_completions_raise _ _ _ _ _ _ _ E D) in H.
      now inversion H.
  - unfold DictionaryCompleter._get_attribute_completions in H.
    unfold lookup_match in E.
    destruct (Re.search _ t) as [[[st e] cs]|]; [|now inversion H].
    rewrite E in H. now inversion H.
Qed.

(** X3.  No structural candidate starts after the cursor: the start
    position of every candidate of [DictionaryCompleter.get_completions] is
    zero (a trigger) or minus the length of the fragment that the item or
    attribute pattern found, and the text of an attribute candidate starts
    with that fragment. *)
Theorem structural_candidates_replace_fragment (h : Py.host)
    (globals locals : Py.env) (document : Document) (c : Completion) :
  c ∈ (DictionaryCompleter.get_completions h globals locals document).1 ->
  (start_position c <= 0)%Z
  /\ (start_position c = 0%Z
      \/ (exists object_var key,
            lookup_match Patterns.item_lookup_pattern
              (text_before_cursor document) = Some (object_var, key)
            /\ start_position c = (- Z.of_nat (length key))%Z)
      \/ (exists object_var attr_name,
            lookup_match Patterns.attribute_lookup_pattern
              (text_before_cursor document) = Some (object_var, attr_name)
            /\ start_position c = (- Z.of_nat (length attr_name))%Z
            /\ startswith (c_text c) attr_name = true)).
Proof.
  unfold DictionaryCompleter.get_completions. cbn zeta.
  set (t := text_before_cursor document).
  set (tl := DictionaryCompleter.loop_locals h globals locals t).
  intros H. apply gen_seq_elem in H as [H|H].
  - destruct (expression_completions_cases h globals tl t)
      as [E|[E|[E|(obj & e & _ & _ & E)]]];
      cbn zeta in E; rewrite E in H; cbn in H;
      [now inversion H| | |now inversion H];
      apply list_elem_of_singleton in H; subst c; cbn; split; auto; lia.
  - apply gen_seq_elem in H as [H|H].
    + apply item_lookup_elem in H as (obj & key & kr & vr & E & ->).
      cbn. split; [lia|]. right. left. now exists obj, key.
    + apply attribute_lookup_elem in H as (obj & a & E & Hc & Hs).
      rewrite Hc. cbn. split; [lia|]. right. right. now exists obj, a.
Qed.

Lemma structural_candidates_replace_fragment_witness :
  (start_position (item_completion (T "'b") (T "'bb'") (T "2")) <= 0)%Z.
Proof.
  apply (structural_candidates_replace_fragment Example.cpython dict_d_globals
           ∅ (mkDocument (T "d['b") 4)).
  vm_compute. apply list_elem_of_here.
Defined.

(** ** Attribute candidates *)

Lemma filter_strongly_sorted {A : Type} (R : A -> A -> Prop) (p : A -> bool)
    (l : list A) :
  StronglySorted R l -> StronglySorted R (List.filter p l).
Proof.
  induction 1 as [|x l _ IH Hx]; cbn; [constructor|].
  destruct (p x); [|assumption].
  constructor; [assumption|].
  apply Forall_forall. intros y Hy.
  apply list_elem_of_In, List.filter_In in Hy as [Hy _].
  rewrite Forall_forall in Hx. now apply Hx, list_elem_of_In.
Qed.

(** X4.  When the attribute pattern matches, the attribute lookup asks
    [dir] for the names of the value looked up.  When [dir] lists them, the
    lookup raises nothing and its candidates are among these names, the
    public ones first, then those with one leading underscore, then those
    with two, each class in lexicographic order.  When [dir] raises, the
    exception leaves the generator and nothing has been yielded. *)
Theorem attribute_candidates_sorted (h : Py.host) (globals tl : Py.env)
    (t object_var attr_name : text) :
  lookup_match Patterns.attribute_lookup_pattern t
  = Some (object_var, attr_name) ->
  let g := DictionaryCompleter._get_attribute_completions h globals t tl in
  let result := DictionaryCompleter._lookup h globals object_var tl in
  (forall names, Py.dir h result = Py.Ok names ->
   g.2 = None
   /\ StronglySorted sorts_before (map c_text g.1)
   /\ Forall (fun c => c_text c ∈ names) g.1)
  /\ (forall e, Py.dir h result = Py.Raise e -> g = gen_raise e).
Proof.
  intros E. cbn zeta.
  split; [|intros e D; exact (attribute_completions_raise _ _ _ _ _ _ _ E D)].
  intros names D.
  rewrite (attribute_completions_spec _ _ _ _ _ _ _ E D).
  cbn [fst snd]. split; [reflexivity|]. split.
  - rewrite map_map. cbn. rewrite map_id.
    apply filter_strongly_sorted, sort_attribute_names_sorted_aux.
  - apply Forall_forall. intros c Hc.
    apply list_elem_of_In, in_map_iff in Hc as (name & <- & Hn).
    apply List.filter_In in Hn as [Hn _]. cbn.
    apply list_elem_of_In.
    eapply Permutation_in; [apply sort_attribute_names_perm_aux|exact Hn].
Qed.

Lemma attribute_candidates_sorted_witness :
  (DictionaryCompleter._get_attribute_completions Example.cpython ∅
     (T "undefined.__c") ∅).2 = None
  /\ StronglySorted sorts_before
       (map c_text
          (DictionaryCompleter._get_attribute_completions Example.cpython ∅
             (T "undefined.__c") ∅).1)
  /\ Forall (fun c => c_text c ∈ Example.none_names)
       (DictionaryCompleter._get_attribute_completions Example.cpython ∅
          (T "undefined.__c") ∅).1.
Proof.
  destruct (attribute_candidates_sorted Example.cpython ∅ ∅
              (T "undefined.__c") (T "undefined") (T "__c")) as [Hok _].
  - vm_compute. reflexivity.
  - apply (Hok Example.none_names). vm_compute. reflexivity.
Defined.

(** ** Item candidates and the later sources *)

Lemma item_completion_counts (key k_repr v_repr : text) :
  PythonCompleter.counts_as_dict_completion
    (item_completion key k_repr v_repr) = true.
Proof.
  unfold PythonCompleter.counts_as_dict_completion. cbn [c_text item_completion].
  destruct (str_contains (T "[.") (k_repr ++ T "]")) eqn:E; [|reflexivity].
  apply in_triggers_iff in E.
  repeat (apply elem_of_cons in E as [E|E];
          [apply (f_equal (@rev ascii)) in E; rewrite rev_app_distr in E;
           discriminate|]).
  inversion E.
Qed.

(** X5.  With dictionary completion enabled, as soon as the item lookup
    yields one candidate, the request yields the candidates of the
    dictionary completer only and calls neither the path completer nor
    Jedi: the insert text of a key or index ends with a closing bracket and
    is no trigger. *)
Theorem item_candidates_end_the_request (h : Py.host)
    (co : PythonCompleter.collaborators) (globals locals : Py.env)
    (document : Document) (requested : bool) :
  let t := text_before_cursor document in
  let tl := DictionaryCompleter.loop_locals h globals locals t in
  (DictionaryCompleter._get_item_lookup_completions h globals t tl).1 <> [] ->
  let r := PythonCompleter.get_completions h co globals locals true document
             requested in
  PythonCompleter.yielded r
  = (DictionaryCompleter.get_completions h globals locals document).1
  /\ PythonCompleter.calls r = [].
Proof.
  cbn zeta. intros Hne.
  unfold PythonCompleter.get_completions.
  set (d := DictionaryCompleter.get_completions h globals locals document).
  destruct d.2 eqn:Hd; [split; reflexivity|].
  assert (E : existsb PythonCompleter.counts_as_dict_completion d.1 = true).
  { set (t := text_before_cursor document) in *.
    set (tl := DictionaryCompleter.loop_locals h globals locals t) in *.
    destruct (DictionaryCompleter._get_item_lookup_completions h globals t tl).1
      as [|c items] eqn:Ei; [contradiction|].
    assert (Hc : c ∈ (DictionaryCompleter._get_item_lookup_completions h
                        globals t tl).1)
      by (rewrite Ei; apply list_elem_of_here).
    apply existsb_exists. exists c. split.
    - apply list_elem_of_In. subst d.
      unfold DictionaryCompleter.get_completions in *. cbn zeta in *.
      fold t in Hd |- *. fold tl in Hd |- *.
      destruct (DictionaryCompleter._get_expression_completions h globals t tl)
        as [l1 [e1|]]; [discriminate Hd|]. cbn [gen_seq fst].
      apply elem_of_app. right.
      destruct (DictionaryCompleter._get_item_lookup_completions h globals t tl)
        as [l2 [e2|]]; cbn in *; [assumption|].
      apply elem_of_app. now left.
    - apply item_lookup_elem in Hc as (obj & key & kr & vr & _ & ->).
      apply item_completion_counts. }
  rewrite E. split; reflexivity.
Qed.

Lemma item_candidates_end_the_request_witness :
  PythonCompleter.calls
    (PythonCompleter.get_completions Example.cpython Example.collaborators0
       list_xs_globals ∅ true (mkDocument (T "xs[1") 4) true) = [].
Proof.
  apply (item_candidates_end_the_request Example.cpython
           Example.collaborators0 list_xs_globals ∅
           (mkDocument (T "xs[1") 4) true).
  vm_compute. discriminate.
Defined.

(** ** The bound on index candidates *)

Lemma length_omap_le {A B : Type} (f : A -> option B) (l : list A) :
  length (omap f l) <= length l.
Proof.
  induction l as [|x l IH]; cbn; [lia|]. destruct (f x); cbn; lia.
Qed.

(** X6.  For a list or tuple of any length and any fragment, the index
    lookup raises nothing and yields at most [min(len, 1000)] candidates. *)
Theorem index_completions_bounded (key : text) (l : list Py.value) :
  let g := DictionaryCompleter.index_completions key l in
  g.2 = None /\ length g.1 <= Nat.min (length l) 1000.
Proof.
  cbn zeta.
  assert (B : length (index_candidates key l) <= Nat.min (length l) 1000).
  { unfold index_candidates.
    etransitivity; [apply length_omap_le|].
    etransitivity; [apply List.filter_length_le|].
    now rewrite length_seq. }
  destruct (forallb str_isdigit key) eqn:Ed.
  - rewrite index_completions_spec by now right. now split.
  - destruct key as [|a key].
    + rewrite index_completions_spec by now left. now split.
    + unfold DictionaryCompleter.index_completions. rewrite Ed. cbn.
      split; [reflexivity|lia].
Qed.

(** ** Jedi *)

(** X9.  An exception of [script.completions()] that is an [Exception]
    is passed over: the request yields, raises and calls what it does when
    Jedi answers with no completion at all.  An exception that is none (a
    [KeyboardInterrupt]) is not caught: a requested completion outside a
    string, with dictionary completion off, ends with it. *)
Theorem jedi_failure_is_no_completion (h : Py.host)
    (co : PythonCompleter.collaborators) (globals locals : Py.env)
    (enable : bool) (document : Document) (requested : bool) (e : Py.exn) :
  (Py.is_exception e = true ->
   PythonCompleter.get_completions h (with_jedi co (Some (Py.Raise e))) globals
     locals enable document requested
   = PythonCompleter.get_completions h (with_jedi co (Some (Py.Ok []))) globals
       locals enable document requested)
  /\ (Py.is_exception e = false ->
      Grammar.inside_string (text_before_cursor document) = false ->
      PythonCompleter.raised
        (PythonCompleter.get_completions h (with_jedi co (Some (Py.Raise e)))
           globals locals false document true)
      = Some e).
Proof.
  split; intros He.
  - assert (A : PythonCompleter.after_dictionary
                  (with_jedi co (Some (Py.Raise e))) globals locals document
                  requested
                = PythonCompleter.after_dictionary
                    (with_jedi co (Some (Py.Ok []))) globals locals document
                    requested).
    { unfold PythonCompleter.after_dictionary, PythonCompleter.jedi_step.
      cbn [PythonCompleter.jedi_script with_jedi
           PythonCompleter.path_completions]. rewrite He.
      reflexivity. }
    unfold PythonCompleter.get_completions. rewrite A.
    destruct enable; [|reflexivity].
    destruct (DictionaryCompleter.get_completions h globals locals document).2;
      [reflexivity|].
    now destruct (existsb _ _).
  - intros Hin.
    unfold PythonCompleter.get_completions, PythonCompleter.after_dictionary.
    rewrite Hin. cbn [orb]. unfold PythonCompleter.jedi_step.
    cbn [PythonCompleter.jedi_script with_jedi]. now rewrite He.
Qed.

Lemma jedi_failure_is_no_completion_witness :
  PythonCompleter.get_completions Example.cpython
    (with_jedi Example.collaborators0 (Some (Py.Raise Py.TypeError))) ∅ ∅
    true (mkDocument (T "ab") 2) true
  = PythonCompleter.mkRun [Example.marker "path"] None
      [PythonCompleter.CallPathCompleter; PythonCompleter.CallJedi]
  /\ PythonCompleter.raised
       (PythonCompleter.get_completions Example.cpython
          (with_jedi Example.collaborators0
             (Some (Py.Raise Py.KeyboardInterrupt))) ∅ ∅
          false (mkDocument (T "ab") 2) true)
     = Some Py.KeyboardInterrupt.
Proof.
  split.
  - rewrite (proj1 (jedi_failure_is_no_completion Example.cpython
                      Example.collaborators0 ∅ ∅ true
                      (mkDocument (T "ab") 2) true Py.TypeError));
      vm_compute; reflexivity.
  - apply (proj2 (jedi_failure_is_no_completion Example.cpython
                    Example.collaborators0 ∅ ∅ true
                    (mkDocument (T "ab") 2) true Py.KeyboardInterrupt));
      vm_compute; reflexivity.
Defined.

(** ** The empty document *)

(** X10.  On an empty document, without an explicit request, nothing is
    yielded, nothing is raised and no collaborator is called, whatever the
    host, the environment and the setting of dictionary completion. *)
Theorem empty_document_yields_nothing (h : Py.host)
    (co : PythonCompleter.collaborators) (globals locals : Py.env)
    (enable : bool) (cursor : nat) :
  PythonCompleter.get_completions h co globals locals enable
    (mkDocument [] cursor) false
  = PythonCompleter.mkRun [] None [].
Proof.
  assert (E : text_before_cursor (mkDocument [] cursor) = [])
    by (unfold text_before_cursor; cbn; apply take_nil).
  assert (A : PythonCompleter.after_dictionary co globals locals
                (mkDocument [] cursor) false = PythonCompleter.mkRun [] None []).
  { unfold PythonCompleter.after_dictionary. rewrite E. reflexivity. }
  unfold PythonCompleter.get_completions. rewrite A.
  destruct enable; [|reflexivity].
  unfold DictionaryCompleter.get_completions. cbn zeta. rewrite E.
  reflexivity.
Qed.

(** ** Escaped text under the grammar *)

Section EscapedFragment.
Import PythonCompleter.

Lemma wrapper_is_fragment (q : ascii) (t : text) :
  q <> backslash ->
  forallb (chr_not [newline]) t = true ->
  fragment q (replace_chr q [backslash; q]
                (replace_chr backslash [backslash; backslash] t)).
Proof.
  intros Hq. induction t as [|a t IH]; intros Hn; [constructor|].
  cbn [forallb] in Hn. apply andb_true_iff in Hn as [Ha Hn].
  rewrite wrapper_cons by assumption.
  destruct (Ascii.eqb_spec a backslash) as [->|Hb].
  - apply fragment_escape. now apply IH.
  - destruct (Ascii.eqb_spec a q) as [->|Haq].
    + apply fragment_escape. now apply IH.
    + apply fragment_plain; [|now apply IH].
      unfold chr_not in *. cbn [existsb] in *.
      destruct (Ascii.eqb_spec a newline); [discriminate|].
      destruct (Ascii.eqb_spec a q); [contradiction|].
      destruct (Ascii.eqb_spec a backslash); [contradiction|].
      reflexivity.
Qed.

End EscapedFragment.

(** The grammar on a fragment after an opening quote, as for the cursor
    inside a string. *)
Lemma grammar_match_of_fragment (q : Grammar.quote_style) (pre frag : text) :
  before (quote_char q :: frag) pre ->
  fragment (quote_char q) frag ->
  Grammar.grammar_match (pre ++ quote_char q :: frag) = Some (q, frag).
Proof.
  intros Hpre Hfrag. unfold Grammar.grammar_match, Re.match_at.
  rewrite drop_0. unfold Grammar.grammar. cbn [Re.Seqs].
  rewrite seq_unfold, star_unfold.
  destruct q; cbn [quote_char] in *.
  - rewrite (star_before _ _ _ Hpre) with
      (r := (S (0 + length pre) + length frag, <[1 := frag]> ∅)).
    + cbn beta iota. unfold Re.group. now rewrite lookup_insert_eq.
    + discriminate.
    + intros pos c K. now apply piece_open_single.
    + rewrite length_app. lia.
    + now apply open_single.
  - rewrite (star_before _ _ _ Hpre) with
      (r := (S (0 + length pre) + length frag, <[2 := frag]> ∅)).
    + cbn beta iota. unfold Re.group.
      rewrite lookup_insert_ne by discriminate.
      now rewrite lookup_empty, lookup_insert_eq.
    + discriminate.
    + intros pos c K. now apply piece_open_double.
    + rewrite length_app. lia.
    + now apply open_double.
Qed.

(** X11.  A text without newline, escaped by the wrapper of a quote style
    and put after an opening quote of that style, is what the grammar
    reports for the cursor at its end: the style is the style of the quote,
    the group holds the escaped text, and [unwrapper] turns it back into
    the text. *)
Theorem escaped_text_is_matched (q : Grammar.quote_style) (pre path : text) :
  before (quote_char q :: PythonCompleter.escape_func q path) pre ->
  forallb (chr_not [newline]) path = true ->
  Grammar.grammar_match
    (pre ++ quote_char q :: PythonCompleter.escape_func q path)
  = Some (q, PythonCompleter.escape_func q path)
  /\ PythonCompleter.unescape_func q (PythonCompleter.escape_func q path)
     = path.
Proof.
  intros Hpre Hn. split.
  - apply grammar_match_of_fragment; [assumption|].
    destruct q; apply wrapper_is_fragment; (assumption || discriminate).
  - destruct q; apply unwrapper_wrapper; discriminate.
Qed.

Lemma escaped_text_is_matched_witness :
  Grammar.grammar_match
    (T "open(" ++ squote :: PythonCompleter.single_quoted_wrapper (T "it's\a"))
  = Some (Grammar.SingleQuoted,
          PythonCompleter.single_quoted_wrapper (T "it's\a"))
  /\ PythonCompleter.unwrapper
       (PythonCompleter.single_quoted_wrapper (T "it's\a")) = T "it's\a".
Proof.
  apply (escaped_text_is_matched Grammar.SingleQuoted (T "open(")
           (T "it's\a")).
  - repeat (apply before_plain; [reflexivity|]). apply before_nil.
  - reflexivity.
Defined.

(** ** Where a match ends *)

Section MatchSound.
Import Re.

Lemma drop_cons_inv (t : text) (pos : nat) (a : ascii) (s : text) :
  drop pos t = a :: s -> drop (S pos) t = s /\ pos < length t.
Proof.
  revert pos. induction t as [|b t IH]; intros [|pos] H; cbn in *;
    try discriminate.
  - injection H as _ <-. split; [now rewrite drop_0|lia].
  - destruct (IH _ H). split; [assumption|lia].
Qed.

(** A repetition that succeeds has called what follows it, somewhere
    further in the text. *)
Lemma star_loop_sound (m : nat -> text -> caps -> cont -> option result)
    (t : text) :
  (forall pos c k res, pos <= length t ->
     m pos (drop pos t) c k = Some res ->
     exists pos1 c1, pos <= pos1 <= length t
                     /\ k pos1 (drop pos1 t) c1 = Some res) ->
  forall (k : cont) fuel pos c res, pos <= length t ->
  star_loop m k fuel pos (drop pos t) c = Some res ->
  exists pos1 c1, pos <= pos1 <= length t
                  /\ k pos1 (drop pos1 t) c1 = Some res.
Proof.
  intros Hm k. induction fuel as [|fuel IH]; intros pos c res Hp H.
  - exists pos, c. split; [lia|exact H].
  - cbn [star_loop] in H.
    destruct (m pos (drop pos t) c _) as [x|] eqn:E.
    + injection H as ->.
      apply Hm in E as (pos1 & c1 & Hp1 & E); [|assumption].
      destruct (Nat.ltb pos pos1); [|discriminate].
      apply IH in E as (pos2 & c2 & Hp2 & E); [|lia].
      exists pos2, c2. split; [lia|exact E].
    + exists pos, c. split; [lia|exact H].
Qed.

(** A match that succeeds has called its continuation at an offset of the
    text at or after its own. *)
Lemma rmatch_sound (r : regex) (t : text) :
  forall pos c k res, pos <= length t ->
  rmatch r pos (drop pos t) c k = Some res ->
  exists pos1 c1, pos <= pos1 <= length t
                  /\ k pos1 (drop pos1 t) c1 = Some res.
Proof.
  induction r as [|p|r1 IH1 r2 IH2|r1 IH1 r2 IH2|r1 IH1|n r1 IH1|l| |];
    intros pos c k res Hp H; cbn [rmatch] in H.
  - exists pos, c. split; [lia|exact H].
  - destruct (drop pos t) as [|a s] eqn:E; [discriminate|].
    destruct (p a); [|discriminate].
    apply drop_cons_inv in E as [E Hl]. exists (S pos), c.
    split; [lia|]. now rewrite E.
  - apply IH1 in H as (pos1 & c1 & Hp1 & H); [|assumption].
    apply IH2 in H as (pos2 & c2 & Hp2 & H); [|lia].
    exists pos2, c2. split; [lia|exact H].
  - destruct (rmatch r1 pos (drop pos t) c k) as [x|] eqn:E.
    + injection H as ->. now apply IH1 in E.
    + now apply IH2 in H.
  - now apply (star_loop_sound _ t IH1) in H.
  - apply IH1 in H as (pos1 & c1 & Hp1 & H); [|assumption].
    eauto.
  - destruct (startswith _ l); [discriminate|].
    exists pos, c. split; [lia|exact H].
  - destruct (Nat.eqb pos 0); [discriminate|].
    exists pos, c. split; [lia|exact H].
  - destruct (at_eol _); [|discriminate].
    exists pos, c. split; [lia|exact H].
Qed.

Lemma search_from_sound (r : regex) (t : text) (fuel pos st e : nat)
    (c : caps) :
  pos + fuel <= length t ->
  search_from r t fuel pos = Some (st, e, c) ->
  st <= length t /\ match_at r st t = Some (e, c).
Proof.
  revert pos. induction fuel as [|fuel IH]; intros pos Hp H;
    cbn [search_from] in H.
  - destruct (match_at r pos t) as [[e' c']|] eqn:E; [|discriminate].
    injection H as <- <- <-. split; [lia|exact E].
  - destruct (match_at r pos t) as [[e' c']|] eqn:E.
    + injection H as <- <- <-. split; [lia|exact E].
    + apply IH in H; [assumption|lia].
Qed.

End MatchSound.

(** ** Outside strings *)

(** The grammar matches only a text that has a quote. *)
Lemma inside_string_has_quote (t : text) :
  Grammar.inside_string t = true -> squote ∈ t \/ dquote ∈ t.
Proof.
  unfold Grammar.inside_string, Re.match_at.
  destruct (Re.rmatch Grammar.grammar 0 (drop 0 t) ∅ Re.accept)
    as [res|] eqn:E; [intros _|discriminate].
  unfold Grammar.grammar in E. cbn [Re.Seqs] in E. rewrite seq_unfold in E.
  apply rmatch_sound in E as (pos1 & c1 & Hp & E); [|lia].
  rewrite seq_unfold, alt_unfold in E.
  unfold Grammar.in_single, Grammar.in_double in E.
  rewrite !seq_unfold in E.
  destruct (drop pos1 t) as [|a s] eqn:Ed; [discriminate|].
  assert (Ha : a ∈ t).
  { rewrite <- (take_drop pos1 t), Ed. apply elem_of_app. right.
    apply list_elem_of_here. }
  cbn [Re.rmatch] in E.
  destruct (chr_is squote a) eqn:E1.
  - left. apply Ascii.eqb_eq in E1. now subst a.
  - destruct (chr_is dquote a) eqn:E2; [|discriminate].
    right. apply Ascii.eqb_eq in E2. now subst a.
Qed.

(** X12.  A text before the cursor without any quote is never taken for
    the inside of a string: with dictionary completion off, a requested
    completion calls the path completer and then Jedi. *)
Theorem jedi_consulted_without_quotes (h : Py.host)
    (co : PythonCompleter.collaborators) (globals locals : Py.env)
    (document : Document) :
  forallb (chr_not [squote; dquote]) (text_before_cursor document) = true ->
  Grammar.inside_string (text_before_cursor document) = false
  /\ PythonCompleter.calls
       (PythonCompleter.get_completions h co globals locals false document
          true)
     = [PythonCompleter.CallPathCompleter; PythonCompleter.CallJedi].
Proof.
  intros Hq.
  assert (E : Grammar.inside_string (text_before_cursor document) = false).
  { apply not_true_is_false. intros Hi.
    rewrite forallb_forall in Hq.
    apply inside_string_has_quote in Hi as [Hi|Hi];
      apply list_elem_of_In, Hq in Hi; discriminate. }
  split; [exact E|].
  unfold PythonCompleter.get_completions, PythonCompleter.after_dictionary.
  rewrite E. cbn [orb]. unfold PythonCompleter.jedi_step.
  destruct (PythonCompleter.jedi_script co document locals globals)
    as [[l|e]|]; [reflexivity| |reflexivity].
  now destruct (Py.is_exception e).
Qed.

Lemma jedi_consulted_without_quotes_witness :
  PythonCompleter.calls
    (PythonCompleter.get_completions Example.cpython Example.collaborators0
       ∅ ∅ false (mkDocument (T "import o") 8) true)
  = [PythonCompleter.CallPathCompleter; PythonCompleter.CallJedi].
Proof.
  apply (jedi_consulted_without_quotes Example.cpython Example.collaborators0
           ∅ ∅ (mkDocument (T "import o") 8)).
  vm_compute. reflexivity.
Defined.

(** ** The fragment of a lookup *)

Section LookupFragment.
Import Re.

(** A run of characters of a class that succeeds took some characters of
    the class and called what follows with the same groups. *)
Lemma star_class_sound (p : ascii -> bool) (t : text) (k : cont) :
  forall fuel pos c res, pos <= length t ->
  star_loop (rmatch (Chr p)) k fuel pos (drop pos t) c = Some res ->
  exists n, pos + n <= length t
            /\ forallb p (take n (drop pos t)) = true
            /\ k (pos + n) (drop (pos + n) t) c = Some res.
Proof.
  induction fuel as [|fuel IH]; intros pos c res Hp H.
  - exists 0. rewrite Nat.add_0_r. repeat split; [lia|exact H].
  - cbn [star_loop rmatch] in H.
    destruct (drop pos t) as [|a s] eqn:Ed.
    + exists 0. rewrite Nat.add_0_r, Ed. repeat split; [lia|exact H].
    + destruct (drop_cons_inv _ _ _ _ Ed) as [Es Hl].
      destruct (p a) eqn:Ea.
      * rewrite (proj2 (Nat.ltb_lt pos (S pos))) in H by lia.
        destruct (star_loop _ k fuel (S pos) s c) as [x|] eqn:E.
        -- injection H as ->. rewrite <- Es in E.
           apply IH in E as (n & Hn & Hf & E); [|lia].
           exists (S n). split; [lia|]. split.
           ++ cbn [take forallb]. rewrite Ea. now rewrite <- Es.
           ++ now replace (pos + S n) with (S pos + n) by lia.
        -- exists 0. rewrite Nat.add_0_r, Ed. repeat split; [lia|exact H].
      * exists 0. rewrite Nat.add_0_r, Ed. repeat split; [lia|exact H].
Qed.

Lemma fragment_pattern_sound (opening : ascii) (p : ascii -> bool) (t : text)
    (object_var frag : text) :
  lookup_match (fragment_pattern opening p) t = Some (object_var, frag) ->
  forallb p frag = true
  /\ exists pre, t = pre ++ frag \/ t = pre ++ frag ++ [newline].
Proof.
  unfold lookup_match.
  destruct (search _ t) as [[[st e] c]|] eqn:Es; [|discriminate].
  intros Hg.
  assert (Hc : c !! 2 = Some frag).
  { unfold Patterns.groups2, group in Hg.
    destruct (c !! 1); [|discriminate].
    destruct (c !! 2); [|discriminate]. now injection Hg as _ ->. }
  apply search_from_sound in Es as [Hst Hm]; [|lia].
  unfold match_at, fragment_pattern in Hm. cbn [Seqs] in Hm.
  rewrite seq_unfold in Hm.
  apply rmatch_sound in Hm as (pos1 & c1 & Hp1 & Hm); [|assumption].
  rewrite seq_unfold in Hm.
  apply rmatch_sound in Hm as (pos2 & c2 & Hp2 & Hm); [|lia].
  rewrite seq_unfold in Hm.
  apply rmatch_sound in Hm as (pos3 & c3 & Hp3 & Hm); [|lia].
  rewrite seq_unfold, group_unfold, star_unfold in Hm.
  apply star_class_sound in Hm as (n & Hn & Hf & Hm); [|lia].
  cbn [rmatch] in Hm.
  destruct (at_eol (drop (pos3 + n) t)) eqn:Ee; [|discriminate].
  unfold accept in Hm. injection Hm as _ <-.
  replace (pos3 + n - pos3) with n in Hc by lia.
  rewrite lookup_insert_eq in Hc. injection Hc as <-.
  split; [assumption|]. exists (take pos3 t).
  assert (Ht : t = take pos3 t ++ take n (drop pos3 t) ++ drop (pos3 + n) t).
  { rewrite <- drop_drop, !take_drop. reflexivity. }
  destruct (drop (pos3 + n) t) as [|a [|b s]]; try discriminate.
  - left. now rewrite app_nil_r in Ht.
  - right. cbn [at_eol] in Ee. apply Ascii.eqb_eq in Ee. now subst a.
Qed.

End LookupFragment.

(** X13.  The fragment that the item-lookup pattern finds has no square
    bracket and runs to the end of the text before the cursor (or to the
    newline that ends it): with the start position of the candidates,
    minus its length, the candidates replace this fragment. *)
Theorem item_fragment_ends_the_text (t object_var key : text) :
  lookup_match Patterns.item_lookup_pattern t = Some (object_var, key) ->
  forallb Patterns.no_bracket key = true
  /\ exists pre, t = pre ++ key \/ t = pre ++ key ++ [newline].
Proof.
  intros H.
  now apply (fragment_pattern_sound "["%char Patterns.no_bracket t object_var).
Qed.

Lemma item_fragment_ends_the_text_witness :
  forallb Patterns.no_bracket (T "'b") = true
  /\ exists pre, T "d['b" = pre ++ T "'b"
                 \/ T "d['b" = pre ++ T "'b" ++ [newline].
Proof.
  apply (item_fragment_ends_the_text (T "d['b") (T "d") (T "'b")).
  vm_compute. reflexivity.
Defined.

(** X14.  The fragment that the attribute-lookup pattern finds is made of
    letters, digits and underscores and runs to the end of the text before
    the cursor (or to the newline that ends it). *)
Theorem attribute_fragment_ends_the_text (t object_var attr_name : text) :
  lookup_match Patterns.attribute_lookup_pattern t
  = Some (object_var, attr_name) ->
  forallb is_name_char attr_name = true
  /\ exists pre, t = pre ++ attr_name \/ t = pre ++ attr_name ++ [newline].
Proof.
  intros H.
  now apply (fragment_pattern_sound "."%char is_name_char t object_var).
Qed.

Lemma attribute_fragment_ends_the_text_witness :
  forallb is_name_char (T "__c") = true
  /\ exists pre, T "undefined.__c" = pre ++ T "__c"
                 \/ T "undefined.__c" = pre ++ T "__c" ++ [newline].
Proof.
  apply (attribute_fragment_ends_the_text (T "undefined.__c") (T "undefined")
           (T "__c")).
  vm_compute. reflexivity.
Defined.

(** The newline case is real: after [x.ab] and a newline the fragment is
    [ab], two characters, while the two characters before the cursor are
    [b] and the newline. *)
Example attribute_fragment_before_newline :
  lookup_match Patterns.attribute_lookup_pattern (T "x.ab" ++ [newline])
  = Some (T "x", T "ab").
Proof. vm_compute. reflexivity. Qed.

(** ** Where an exception can come from *)






(** ** Keys and a fragment that stands for a text *)

(** X16.  When the item-lookup pattern matches, the expression is a
    dictionary whose keys all have a [str], and the fragment stands for a
    text [p] (nothing parses and [p] is the fragment itself, or the first
    candidate that parses is the string [p]), the candidates are, in the
    order of the dictionary, those of the keys whose [str] starts with [p]
    and that have a [repr], as has their value; nothing is raised. *)
Theorem key_completions_for_text (h : Py.host) (globals tl : Py.env)
    (t object_var key p : text) (items : list (Py.value * Py.value)) :
  lookup_match Patterns.item_lookup_pattern t = Some (object_var, key) ->
  DictionaryCompleter._lookup h globals object_var tl = Py.VDict items ->
  DictionaryCompleter.eval_key h (Py.VStr key)
    [key; key ++ [dquote]; key ++ [squote]] = Py.Ok (Py.VStr p) ->
  Forall (fun kv => is_Some (Py.str kv.1)) items ->
  DictionaryCompleter._get_item_lookup_completions h globals t tl
  = (key_candidates key p items, None).
Proof.
  unfold lookup_match, DictionaryCompleter._get_item_lookup_completions.
  intros Hm Hl Hk Hs.
  destruct (Re.search _ t) as [[[st e] c]|]; [|discriminate].
  rewrite Hm, Hl. now apply dict_completions_str_fragment.
Qed.

Lemma key_completions_for_text_witness :
  DictionaryCompleter._get_item_lookup_completions Example.cpython
    dict_d_globals (T "d['b") ∅
  = (key_candidates (T "'b") (T "b")
       [(Py.VStr (T "a"), Py.VInt 1); (Py.VStr (T "bb"), Py.VInt 2)], None).
Proof.
  apply (key_completions_for_text Example.cpython dict_d_globals ∅
           (T "d['b") (T "d") (T "'b") (T "b")).
  - vm_compute; reflexivity.
  - vm_compute; reflexivity.
  - vm_compute; reflexivity.
  - repeat constructor; cbn; eauto.
Defined.

(** ** Text that needs no escaping *)

Section PlainText.
Import PythonCompleter.

Lemma replace_chr_absent (old : ascii) (new t : text) :
  forallb (chr_not [old]) t = true -> replace_chr old new t = t.
Proof.
  induction t as [|a t IH]; [reflexivity|].
  cbn [forallb replace_chr]. intros H. apply andb_true_iff in H as [Ha H].
  rewrite (IH H). unfold chr_not in Ha. cbn [existsb] in Ha.
  rewrite orb_false_r in Ha. apply negb_true_iff in Ha. now rewrite Ha.
Qed.

Lemma unwrapper_absent (t : text) :
  forallb (chr_not [backslash]) t = true -> unwrapper t = t.
Proof.
  induction t as [|a t IH]; [reflexivity|].
  cbn [forallb]. intros H. apply andb_true_iff in H as [Ha H].
  unfold chr_not in Ha. cbn [existsb] in Ha.
  rewrite orb_false_r in Ha. apply negb_true_iff in Ha.
  cbn [unwrapper]. rewrite Ha. now rewrite (IH H).
Qed.

End PlainText.

(** X17.  A text without backslash and without the quote of the style is
    left as it is by the wrapper of the style, and a text without backslash
    is left as it is by [unwrapper]: such a fragment is completed and
    inserted letter for letter. *)
Theorem plain_text_is_not_escaped (q : Grammar.quote_style) (t : text) :
  forallb (chr_not [quote_char q; backslash]) t = true ->
  PythonCompleter.escape_func q t = t
  /\ PythonCompleter.unescape_func q t = t.
Proof.
  intros H.
  assert (Hb : forallb (chr_not [backslash]) t = true).
  { apply forallb_forall. intros a Ha.
    rewrite forallb_forall in H. apply H in Ha.
    apply (chr_not_weaken _ _ _ Ha). intros x [<-|[]]. right. now left. }
  assert (Hq : forallb (chr_not [quote_char q]) t = true).
  { apply forallb_forall. intros a Ha.
    rewrite forallb_forall in H. apply H in Ha.
    apply (chr_not_weaken _ _ _ Ha). intros x [<-|[]]. now left. }
  split; [|now apply unwrapper_absent].
  destruct q; cbn [PythonCompleter.escape_func quote_char] in *;
    unfold PythonCompleter.single_quoted_wrapper,
      PythonCompleter.double_quoted_wrapper;
    rewrite (replace_chr_absent backslash) by assumption;
    now apply replace_chr_absent.
Qed.

Lemma plain_text_is_not_escaped_witness :
  PythonCompleter.single_quoted_wrapper (T "/usr/lib") = T "/usr/lib"
  /\ PythonCompleter.unwrapper (T "/usr/lib") = T "/usr/lib".
Proof.
  apply (plain_text_is_not_escaped Grammar.SingleQuoted (T "/usr/lib")).
  reflexivity.
Defined.

(** ** A requested completion inside a string *)

(** X18.  With dictionary completion off, a requested completion whose
    text before the cursor the grammar matches yields the candidates of the
    path completer, in their order, and nothing else. *)
Theorem path_completions_inside_string (h : Py.host)
    (co : PythonCompleter.collaborators) (globals locals : Py.env)
    (document : Document) :
  Grammar.inside_string (text_before_cursor document) = true ->
  PythonCompleter.get_completions h co globals locals false document true
  = PythonCompleter.mkRun (PythonCompleter.path_completions co document) None
      [PythonCompleter.CallPathCompleter].
Proof.
  intros H.
  unfold PythonCompleter.get_completions, PythonCompleter.after_dictionary.
  now rewrite H.
Qed.

Lemma path_completions_inside_string_witness :
  PythonCompleter.get_completions Example.cpython Example.collaborators0 ∅ ∅
    false (mkDocument (T "open('a") 7) true
  = PythonCompleter.mkRun [Example.marker "path"] None
      [PythonCompleter.CallPathCompleter].
Proof.
  apply (path_completions_inside_string Example.cpython Example.collaborators0
           ∅ ∅ (mkDocument (T "open('a") 7)).
  vm_compute. reflexivity.
Defined.
